(** * Hook lengths of d-complete posets

    A shallow embedding of [sage/combinat/posets/d_complete.py]
    (class [DCompletePoset]: the lazy attribute [_hooks], [get_hook],
    [get_hooks]) and of [sage/manifolds/continuous_map_image.py]
    (class [ImageManifoldSubset]: [__contains__]).

    Python dictionaries are finite maps ([gmap]), the [enqueued] set is a
    [gset], the [deque] is a list used first-in first-out, Python integers
    are [Z].  A failed dictionary lookup raises [KeyError]; the two [while]
    loops are driven by a fuel argument and report [OutOfFuel] when it runs
    out. *)

From stdpp Require Import gmap list strings pretty.
From Stdlib Require Import ZArith Ascii.

#[local] Set Warnings "-clear-no-such-hyp".
Local Open Scope Z_scope.

(** ** Outcomes of a Python computation *)

Inductive exn (K : Type) : Type :=
  | KeyError (k : K)
  | IndexError
  | NotImplementedError.
Arguments KeyError {K} k.
Arguments IndexError {K}.
Arguments NotImplementedError {K}.

Inductive outcome (K A : Type) : Type :=
  | Done (a : A)
  | Raised (e : exn K)
  | OutOfFuel.
Arguments Done {K A} a.
Arguments Raised {K A} e.
Arguments OutOfFuel {K A}.

#[global] Instance outcome_bind {K : Type} : MBind (outcome K) :=
  λ A B (k : A → outcome K B) (c : outcome K A),
    match c with
    | Done a => k a
    | Raised e => Raised e
    | OutOfFuel => OutOfFuel
    end.

Section d_complete.
Context `{Countable K}.

(** [d[key]] on a dictionary. *)
Definition getitem {V : Type} (d : gmap K V) (key : K) : outcome K V :=
  match d !! key with
  | Some v => Done v
  | None => Raised (KeyError key)
  end.

(** [l[i]] on a list, for an index that is not negative. *)
Definition list_getitem {V : Type} (l : list V) (i : nat) : outcome K V :=
  match l !! i with
  | Some v => Done v
  | None => Raised IndexError
  end.

(** ** The poset collaborator

    [DCompletePoset] inherits from [FinitePoset]; [_hooks] only consumes
    the queries below.  [all_paths P a b] stands for
    [self._hasse_diagram.all_paths(self._element_to_vertex(a),
    self._element_to_vertex(b))], and [ground] for the finite list of
    elements of the poset. *)

Definition diamond : Type := K * K * K * K.

Definition d0 (d : diamond) : K := d.1.1.1.
Definition d1 (d : diamond) : K := d.1.1.2.
Definition d2 (d : diamond) : K := d.1.2.
Definition d3 (d : diamond) : K := d.2.

Record Poset : Type := {
  ground : list K;
  lower_covers : K → list K;
  upper_covers : K → list K;
  minimal_elements : list K;
  order_ideal_cardinality : list K → Z;
  diamonds : list diamond;
  all_paths : K → K → list (list K)
}.

(** ** First pass of [_hooks]: the double-tailed diamonds *)

Record tables : Type := {
  min_diamond : gmap K K;
  max_diamond : gmap K K;
  diamond_index : gmap K nat
}.

Definition no_tables : tables :=
  {| min_diamond := ∅; max_diamond := ∅; diamond_index := ∅ |}.

(** [min_diamond[mx] = mn; max_diamond[mn] = mx; diamond_index[mx] = index] *)
Definition record_diamond (mn mx : K) (index : nat) (t : tables) : tables :=
  {| min_diamond := <[mx := mn]> (min_diamond t);
     max_diamond := <[mn := mx]> (max_diamond t);
     diamond_index := <[mx := index]> (diamond_index t) |}.

(** The state of the [while True] loop. *)
Record chain : Type := {
  min_elmt : K;
  max_elmt : K;
  tabs : tables
}.

(** [[(i,j) for i in potential_min for j in potential_max]] *)
Definition candidate_pairs (potential_min potential_max : list K) : list (K * K) :=
  flat_map (λ i, map (λ j, (i, j)) potential_max) potential_min.

(** The [for (mn, mx) in ...] loop, with its [continue] and its [break];
    the boolean is [found_diamond]. *)
Fixpoint try_candidates (P : Poset) (index : nat) (cands : list (K * K))
    (st : chain) : chain * bool :=
  match cands with
  | [] => (st, false)
  | (mn, mx) :: rest =>
      if negb (length (lower_covers P mx) =? 1)%nat then
        try_candidates P index rest st
      else if (length (all_paths P mn mx) =? 2)%nat then
        ({| min_elmt := mn; max_elmt := mx;
            tabs := record_diamond mn mx index (tabs st) |}, true)
      else try_candidates P index rest st
  end.

(** The [while True] loop; [None] when the fuel runs out. *)
Fixpoint extend_chain (fuel : nat) (P : Poset) (index : nat) (st : chain)
    : option chain :=
  match fuel with
  | O => None
  | S fuel' =>
      let potential_min := lower_covers P (min_elmt st) in
      let potential_max := upper_covers P (max_elmt st) in
      let '(st', found_diamond) :=
        try_candidates P index (candidate_pairs potential_min potential_max) st in
      if found_diamond then extend_chain fuel' P index st' else Some st'
  end.

(** [for index, d in enumerate(diamonds)] *)
Fixpoint find_chains (fuel : nat) (P : Poset) (index : nat) (ds : list diamond)
    (t : tables) : option tables :=
  match ds with
  | [] => Some t
  | d :: rest =>
      let t1 := record_diamond (d0 d) (d3 d) index t in
      match extend_chain fuel P index
              {| min_elmt := d0 d; max_elmt := d3 d; tabs := t1 |} with
      | Some st => find_chains fuel P (S index) rest (tabs st)
      | None => None
      end
  end.

(** ** Second pass of [_hooks]: the breadth-first computation *)

(** [for c in self.upper_covers(elmt)] *)
Fixpoint enqueue_covers (cs : list K) (queue : list K) (enqueued : gset K)
    : list K * gset K :=
  match cs with
  | [] => (queue, enqueued)
  | c :: rest =>
      if decide (c ∈ enqueued) then enqueue_covers rest queue enqueued
      else enqueue_covers rest (queue ++ [c]) ({[c]} ∪ enqueued)
  end.

(** The value stored in [hooks[elmt]]. *)
Definition hook_value (P : Poset) (t : tables) (hooks : gmap K Z) (elmt : K)
    : outcome K Z :=
  match diamond_index t !! elmt with
  | None => Done (order_ideal_cardinality P [elmt])
  | Some i =>
      d ← list_getitem (diamonds P) i;
      let side1 := d1 d in
      let side2 := d2 d in
      h1 ← getitem hooks side1;
      h2 ← getitem hooks side2;
      b ← getitem (min_diamond t) elmt;
      hb ← getitem hooks b;
      Done (h1 + h2 - hb)
  end.

(** One round of the [while queue] loop, [elmt] being the element
    [queue.popleft()] returned and [queue'] the rest of the queue. *)
Definition bfs_round (P : Poset) (t : tables) (elmt : K) (queue' : list K)
    (enqueued : gset K) (hooks : gmap K Z)
    : outcome K (list K * gset K * gmap K Z) :=
  h ← hook_value P t hooks elmt;
  let hooks' := <[elmt := h]> hooks in
  let enqueued' := {[elmt]} ∪ enqueued in
  let '(queue'', enqueued'') :=
    enqueue_covers (upper_covers P elmt) queue' enqueued' in
  Done (queue'', enqueued'', hooks').

(** [while queue] *)
Fixpoint compute_hooks (fuel : nat) (P : Poset) (t : tables) (queue : list K)
    (enqueued : gset K) (hooks : gmap K Z) : outcome K (gmap K Z) :=
  match queue with
  | [] => Done hooks
  | elmt :: queue' =>
      match fuel with
      | O => OutOfFuel
      | S fuel' =>
          st ← bfs_round P t elmt queue' enqueued hooks;
          compute_hooks fuel' P t st.1.1 st.1.2 st.2
      end
  end.

(** The state of the [while queue] loop after [n] rounds, or at its end
    when it ends earlier. *)
Fixpoint bfs_rounds (n : nat) (P : Poset) (t : tables) (queue : list K)
    (enqueued : gset K) (hooks : gmap K Z)
    : outcome K (list K * gset K * gmap K Z) :=
  match n, queue with
  | O, _ | _, [] => Done (queue, enqueued, hooks)
  | S n', elmt :: queue' =>
      st ← bfs_round P t elmt queue' enqueued hooks;
      bfs_rounds n' P t st.1.1 st.1.2 st.2
  end.

(** The tables at the end of the first pass. *)
Definition diamond_tables (fuel : nat) (P : Poset) : option tables :=
  find_chains fuel P 0 (diamonds P) no_tables.

(** The body of the lazy attribute [_hooks]. *)
Definition _hooks (fuel : nat) (P : Poset) : outcome K (gmap K Z) :=
  match diamond_tables fuel P with
  | None => OutOfFuel
  | Some t => compute_hooks fuel P t (minimal_elements P) ∅ ∅
  end.

(** ** The public surface: a poset instance with its cached attribute

    Dictionaries are objects: [objects] maps a reference to the dictionary
    stored there, and two references to one object alias.  [cached] is the
    entry of [_hooks] in the instance dictionary, [evaluations] counts how
    often the body of [_hooks] has run. *)

Record instance : Type := {
  objects : gmap nat (gmap K Z);
  cached : option nat;
  evaluations : nat
}.

Definition new_instance : instance :=
  {| objects := ∅; cached := None; evaluations := 0%nat |}.

(** A new dictionary object holding [d]. *)
Definition alloc (d : gmap K Z) (s : instance) : nat * instance :=
  let l := fresh (dom (objects s)) in
  (l, {| objects := <[l := d]> (objects s);
         cached := cached s;
         evaluations := evaluations s |}).

(** The dictionary a reference points to. *)
Definition deref (s : instance) (l : nat) : gmap K Z :=
  default ∅ (objects s !! l).

(** Modelled from the spec: [@lazy_attribute], the value is computed on
    first access and cached for the lifetime of the instance; an exception
    raised by the body propagates and leaves nothing cached. *)
Definition read_hooks (fuel : nat) (P : Poset) (s : instance)
    : outcome K nat * instance :=
  match cached s with
  | Some l => (Done l, s)
  | None =>
      let s1 := {| objects := objects s; cached := None;
                   evaluations := S (evaluations s) |} in
      match _hooks fuel P with
      | Done hooks =>
          let '(l, s2) := alloc hooks s1 in
          (Done l, {| objects := objects s2; cached := Some l;
                      evaluations := evaluations s2 |})
      | Raised e => (Raised e, s1)
      | OutOfFuel => (OutOfFuel, s1)
      end
  end.

(** [return self._hooks[elmt]] *)
Definition get_hook (fuel : nat) (P : Poset) (elmt : K) (s : instance)
    : outcome K Z * instance :=
  match read_hooks fuel P s with
  | (Done l, s') => (getitem (deref s' l) elmt, s')
  | (Raised e, s') => (Raised e, s')
  | (OutOfFuel, s') => (OutOfFuel, s')
  end.

(** [return dict(self._hooks)] *)
Definition get_hooks (fuel : nat) (P : Poset) (s : instance)
    : outcome K nat * instance :=
  match read_hooks fuel P s with
  | (Done l, s') => let '(l', s'') := alloc (deref s' l) s' in (Done l', s'')
  | (Raised e, s') => (Raised e, s')
  | (OutOfFuel, s') => (OutOfFuel, s')
  end.

(** What a caller can do to a dictionary it holds a reference to: any
    sequence of item assignments and deletions replaces its contents. *)
Definition mutate (l : nat) (d : gmap K Z) (s : instance) : instance :=
  {| objects := <[l := d]> (objects s);
     cached := cached s;
     evaluations := evaluations s |}.

(** The cached reference, when there is one, points to an object. *)
Definition valid (s : instance) : Prop :=
  match cached s with
  | Some l => is_Some (objects s !! l)
  | None => True
  end.

(** ** What the collaborator promises *)

(** [covers P a b]: [b] is an upper cover of [a]. *)
Definition covers (P : Poset) (a b : K) : Prop := b ∈ upper_covers P a.

(** The covering relation has no cycle. *)
Definition acyclic (P : Poset) : Prop := ∀ e, ¬ tc (covers P) e e.

Record PosetContract (P : Poset) : Prop := {
  ground_nodup : NoDup (ground P);
  covers_dual : ∀ a b, b ∈ upper_covers P a ↔ a ∈ lower_covers P b;
  covers_ground : ∀ a b, b ∈ upper_covers P a → a ∈ ground P ∧ b ∈ ground P;
  minimal_spec : ∀ e,
    e ∈ minimal_elements P ↔ e ∈ ground P ∧ lower_covers P e = [];
  minimal_nodup : NoDup (minimal_elements P);
  diamonds_spec : ∀ d, d ∈ diamonds P →
    d1 d ∈ upper_covers P (d0 d) ∧ d2 d ∈ upper_covers P (d0 d) ∧
    d3 d ∈ upper_covers P (d1 d) ∧ d3 d ∈ upper_covers P (d2 d);
  ideal_minimal : ∀ e,
    e ∈ ground P → lower_covers P e = [] → order_ideal_cardinality P [e] = 1
}.

(** The condition of the spec under which a candidate pair extends a
    chain: the candidate top has exactly one lower cover and there are
    exactly two directed paths from the candidate bottom to it. *)
Definition extends_chain (P : Poset) (c : K * K) : Prop :=
  length (lower_covers P c.2) = 1%nat ∧ length (all_paths P c.1 c.2) = 2%nat.

#[global] Instance extends_chain_dec (P : Poset) (c : K * K) :
  Decision (extends_chain P c).
Proof. unfold extends_chain. apply _. Defined.

(** The extension as the spec words it: while some candidate pair
    passes the two tests, the first such pair in enumeration order
    replaces the working bottom and top and is recorded in the tables;
    the chain is final when no candidate pair passes. *)
Inductive greedy_extension (P : Poset) (index : nat) : chain → chain → Prop :=
  | greedy_stop (st : chain) :
      Forall (λ c, ¬ extends_chain P c)
        (candidate_pairs (lower_covers P (min_elmt st))
                         (upper_covers P (max_elmt st))) →
      greedy_extension P index st st
  | greedy_step (st : chain) (pre : list (K * K)) (c : K * K)
      (post : list (K * K)) (st' : chain) :
      candidate_pairs (lower_covers P (min_elmt st))
                      (upper_covers P (max_elmt st)) = pre ++ c :: post →
      Forall (λ c', ¬ extends_chain P c') pre →
      extends_chain P c →
      greedy_extension P index
        {| min_elmt := c.1; max_elmt := c.2;
           tabs := record_diamond c.1 c.2 index (tabs st) |} st' →
      greedy_extension P index st st'.

(** Every key of [diamond_index] points into [diamonds], has an entry in
    [min_diamond], and is an upper cover of some element. *)
Definition tables_ok (P : Poset) (t : tables) : Prop :=
  ∀ e i, diamond_index t !! e = Some i →
    (i < length (diamonds P))%nat ∧ is_Some (min_diamond t !! e) ∧
    ∃ a, e ∈ upper_covers P a.

(** The loop invariant of [while queue]. *)
Record bfs_inv (P : Poset) (t : tables) (queue : list K) (enqueued : gset K)
    (hooks : gmap K Z) : Prop := {
  inv_nodup : NoDup queue;
  inv_pending : ∀ x, x ∈ queue → hooks !! x = None;
  inv_done : ∀ x, is_Some (hooks !! x) → x ∈ enqueued;
  inv_origin : ∀ x, x ∈ queue → x ∈ enqueued ∨ x ∈ minimal_elements P;
  inv_values : ∀ e h, hooks !! e = Some h → hook_value P t hooks e = Done h;
  inv_minimal : ∀ x, x ∈ minimal_elements P → is_Some (hooks !! x) ∨ x ∈ queue;
  inv_closed : ∀ x c,
    is_Some (hooks !! x) → c ∈ upper_covers P x → c ∈ enqueued;
  inv_enqueued : ∀ x, x ∈ enqueued → is_Some (hooks !! x) ∨ x ∈ queue;
  inv_ground : ∀ x, is_Some (hooks !! x) ∨ x ∈ queue → x ∈ ground P
}.

(** The element [e] is the top of a diamond chain with sides [s1], [s2]
    and chain-bottom [b]: the tables of the first pass associate [e] with
    a diamond whose sides are [s1] and [s2], and [min_diamond] maps [e] to
    [b]. *)
Definition chain_top (P : Poset) (t : tables) (e s1 s2 b : K) : Prop :=
  ∃ i d, diamond_index t !! e = Some i ∧ diamonds P !! i = Some d ∧
         d1 d = s1 ∧ d2 d = s2 ∧ min_diamond t !! e = Some b.

End d_complete.

Arguments Poset K : clear implicits.
Arguments diamond K : clear implicits.

(** ** The printed form of a d-complete poset

    [order] is [self._hasse_diagram.order()], printed by [%s] in decimal. *)
Definition _repr_ (order : nat) (with_linear_extension : bool) : string :=
  let s := "Finite d-complete poset containing " +:+ pretty order +:+ " elements" in
  if with_linear_extension then s +:+ " with distinguished linear extension"
  else s.

(** The string has no space in it. *)
Fixpoint no_space (s : string) : Prop :=
  match s with
  | EmptyString => True
  | String c s' => c ≠ " "%char ∧ no_space s'
  end.

(** What the first pass keeps true of its tables: [min_diamond] and
    [diamond_index] have the same keys, the indices point into
    [diamonds], and the values of [max_diamond] are keys of
    [diamond_index]. *)
Definition keys_ok `{Countable K} (P : Poset K) (t : tables (K:=K)) : Prop :=
  dom (min_diamond t) = dom (diamond_index t) ∧
  (∀ e i, diamond_index t !! e = Some i → (i < length (diamonds P))%nat) ∧
  (∀ mn mx, max_diamond t !! mn = Some mx → mx ∈ dom (diamond_index t)).

(** Every element in the queue, and every element with a hook, is minimal
    or an upper cover of an element that has its hook. *)
Definition reached_from_below `{Countable K} (P : Poset K) (queue : list K)
    (hooks : gmap K Z) : Prop :=
  ∀ x, x ∈ queue ∨ is_Some (hooks !! x) →
    x ∈ minimal_elements P ∨ ∃ y, is_Some (hooks !! y) ∧ x ∈ upper_covers P y.

(** Every key [e] of the tables lies above the top of the diamond it is
    indexed to, and its entry in [min_diamond] lies below the bottom of
    that diamond. *)
Definition sides_below `{Countable K} (P : Poset K) (t : tables (K:=K)) : Prop :=
  ∀ e i b, diamond_index t !! e = Some i → min_diamond t !! e = Some b →
    ∃ d, diamonds P !! i = Some d ∧
         rtc (covers P) (d3 d) e ∧ rtc (covers P) b (d0 d).

(** The tables of the first pass never lose an entry: the three
    dictionaries of [t] are contained, key by key, in those of [t']. *)
Definition tables_grow `{Countable K} (t t' : tables (K:=K)) : Prop :=
  dom (min_diamond t) ⊆ dom (min_diamond t') ∧
  dom (max_diamond t) ⊆ dom (max_diamond t') ∧
  dom (diamond_index t) ⊆ dom (diamond_index t').

(** ** A finite poset given by its Hasse diagram

    The queries of [FinitePoset] are not part of the two modules embedded
    here; they are modelled on a directed graph given as an adjacency
    dictionary, [DiGraph({0: [1, 2], 1: [3], 2: [3], 3: []})], whose edges
    point from an element to its upper covers. *)

Section finite_poset.
Context `{Countable K}.

(** An adjacency dictionary, in the order it is written. *)
Definition digraph : Type := list (K * list K).

(** Modelled from the spec: the elements of the poset, the vertices of the
    Hasse diagram (the keys of the dictionary, then the remaining
    endpoints). *)
Definition vertices (g : digraph) : list K :=
  remove_dups (g.*1) ++ filter (λ v, v ∉ g.*1) (remove_dups (concat g.*2)).

(** Modelled from the spec: [upper_covers(e)], the direct successors of
    [e] in the Hasse diagram. *)
Definition neighbors_out (g : digraph) (v : K) : list K :=
  match list_find (λ p, p.1 = v) g with
  | Some (_, p) => p.2
  | None => []
  end.

(** Modelled from the spec: [lower_covers(e)], the direct predecessors of
    [e] in the Hasse diagram. *)
Definition neighbors_in (g : digraph) (v : K) : list K :=
  filter (λ u, v ∈ neighbors_out g u) (vertices g).

(** Modelled from the spec: [minimal_elements()], the elements with no
    lower cover. *)
Definition sources (g : digraph) : list K :=
  filter (λ v, neighbors_in g v = []) (vertices g).

(** Modelled from the spec: the order ideal generated by a set of
    elements, the elements less than or equal to one of them; [n] rounds
    of closing under lower covers. *)
Fixpoint order_ideal (g : digraph) (n : nat) (I : gset K) : gset K :=
  match n with
  | O => I
  | S n' =>
      order_ideal g n' (I ∪ list_to_set (flat_map (neighbors_in g) (elements I)))
  end.

(** Modelled from the spec: [order_ideal_cardinality(S)], the count of
    elements less than or equal to some element of [S]. *)
Definition ideal_cardinality (g : digraph) (S : list K) : Z :=
  Z.of_nat (size (order_ideal g (length (vertices g)) (list_to_set S))).

(** Modelled from the spec: the path query of the Hasse diagram, the
    directed paths from [u] to [v], each a list of vertices. *)
Fixpoint paths_from (g : digraph) (fuel : nat) (u v : K) : list (list K) :=
  match fuel with
  | O => []
  | S fuel' =>
      if decide (u = v) then [[u]]
      else flat_map (λ c, map (cons u) (paths_from g fuel' c v)) (neighbors_out g u)
  end.

(** Modelled from the spec: the path query with enough fuel for every
    path of a diagram without cycles. *)
Definition hasse_all_paths (g : digraph) (u v : K) : list (list K) :=
  paths_from g (S (length (vertices g))) u v.

(** The pairs of a list, the first component standing before the second. *)
Fixpoint ordered_pairs (l : list K) : list (K * K) :=
  match l with
  | [] => []
  | x :: rest => map (pair x) rest ++ ordered_pairs rest
  end.

(** Modelled from the spec: [diamonds()], the sequence of base 4-tuples
    (bottom, side1, side2, top): bottom is covered by both sides and both
    sides are covered by top. *)
Definition hasse_diamonds (g : digraph) : list (diamond K) :=
  flat_map (λ w,
    flat_map (λ xy : K * K,
      map (λ z, (w, xy.1, xy.2, z))
          (filter (λ z, z ∈ neighbors_out g xy.2) (neighbors_out g xy.1)))
      (ordered_pairs (neighbors_out g w)))
    (vertices g).

(** Modelled from the spec: the poset collaborator of section 6, built on
    the Hasse diagram [g]. *)
Definition FinitePoset (g : digraph) : Poset K :=
  {| ground := vertices g;
     lower_covers := neighbors_in g;
     upper_covers := neighbors_out g;
     minimal_elements := sources g;
     order_ideal_cardinality := ideal_cardinality g;
     diamonds := hasse_diamonds g;
     all_paths := hasse_all_paths g |}.

End finite_poset.

(** ** Posets of the examples *)

(** [DiGraph({0: [1, 2], 1: [3], 2: [3], 3: []})], a single diamond. *)
Definition single_diamond : Poset nat :=
  FinitePoset [(0, [1; 2]); (1, [3]); (2, [3]); (3, [])]%nat.

(** [DiGraph({0: [1], 1: [2]})], a chain. *)
Definition three_chain : Poset nat :=
  FinitePoset [(0, [1]); (1, [2])]%nat.

(** The reversed Hasse diagram of the Young diagram of the partition
    [[3,2,1]]: cell [(0,0)] is 0, [(0,1)] is 1, [(0,2)] is 2, [(1,0)] is 3,
    [(1,1)] is 4, [(2,0)] is 5, and each cell is covered by its left and
    upper neighbour. *)
Definition shape_321 : Poset nat :=
  FinitePoset [(0, []); (1, [0]); (2, [1]); (3, [0]); (4, [1; 3]); (5, [3])]%nat.

(** [Posets.DoubleTailedDiamond(2)] *)
Definition double_tailed_diamond_2 : Poset nat :=
  FinitePoset [(1, [2]); (2, [3; 4]); (3, [5]); (4, [5]); (5, [6]); (6, [])]%nat.

(** The reversed Hasse diagram of the Young diagram of the partition
    [[3,2,2,2]], cells numbered row by row: row 0 is 0 1 2, row 1 is 3 4,
    row 2 is 5 6, row 3 is 7 8. *)
Definition shape_3222 : Poset nat :=
  FinitePoset [(0, []); (1, [0]); (2, [1]); (3, [0]); (4, [1; 3]); (5, [3]);
               (6, [4; 5]); (7, [5]); (8, [6; 7])]%nat.

(** The same shape with the dictionary, and each list of upper covers,
    written in the opposite order. *)
Definition shape_3222_reversed : Poset nat :=
  FinitePoset [(8, [7; 6]); (7, [5]); (6, [5; 4]); (5, [3]); (4, [3; 1]);
               (3, [0]); (2, [1]); (1, [0]); (0, [])]%nat.

(** ** The image of a continuous map as a manifold subset *)

Module ContinuousMapImage.
Section image.
Context {Point : Type}.

(** What [__contains__] consults: the containment test inherited from
    [ManifoldSubset] and the containment test of [self._map.codomain()]. *)
Record ImageManifoldSubset : Type := {
  super_contains : Point → bool;
  codomain_contains : Point → bool
}.

Definition __contains__ (self : ImageManifoldSubset) (point : Point)
    : outcome Empty_set bool :=
  if super_contains self point then Done true
  else if negb (codomain_contains self point) then Done false
  else Raised NotImplementedError.

End image.
Arguments ImageManifoldSubset Point : clear implicits.

(** The result of a call that returns a truth value or raises an
    exception of its own. *)
Inductive call (E : Type) : Type :=
  | Returned (b : bool)
  | Threw (e : E).
Arguments Returned {E} b.
Arguments Threw {E} e.

(** What [__contains__] can end with when the two tests are calls that
    may raise: an answer, the exception of one of the tests, or its own
    NotImplementedError. *)
Inductive containment (E : Type) : Type :=
  | Answer (b : bool)
  | Propagated (e : E)
  | NotImplemented.
Arguments Answer {E} b.
Arguments Propagated {E} e.
Arguments NotImplemented {E}.

(** [__contains__] with the two tests as calls: [inherited] is
    [super().__contains__(point)] and [in_codomain] is
    [point in self._map.codomain()]; an exception of a test ends the
    method, and the second test is only called after the first returned
    False. *)
Definition contains_calls {Point E : Type} (inherited in_codomain : Point → call E)
    (point : Point) : containment E :=
  match inherited point with
  | Threw e => Propagated e
  | Returned true => Answer true
  | Returned false =>
      match in_codomain point with
      | Threw e => Propagated e
      | Returned false => Answer false
      | Returned true => NotImplemented
      end
  end.

(** What [__init__] reads of its [map] argument: the attributes [_name]
    and [_latex_name], which may be [None], and the names of
    [map.domain()]. *)
Record ContinuousMap : Type := {
  _name : option string;
  _latex_name : option string;
  domain_name : string;
  domain_latex_name : string
}.

(** [x or y] for [x] a string or [None]: [None] and the empty string are
    false. *)
Definition py_or (x : option string) (y : string) : string :=
  match x with
  | Some s => if decide (s = "") then y else s
  | None => y
  end.

(** [__init__], as the pair [(name, latex_name)] it hands to
    [ManifoldSubset.__init__]. *)
Definition __init__ (map : ContinuousMap) (name latex_name : option string)
    : string * string :=
  let map_name := py_or (_name map) "f" in
  let map_latex_name := py_or (_latex_name map) map_name in
  let latex_name :=
    match latex_name with
    | None =>
        match name with
        | None => map_latex_name +:+ "(" +:+ domain_latex_name map +:+ ")"
        | Some name => name
        end
    | Some latex_name => latex_name
    end in
  let name :=
    match name with
    | None => map_name +:+ "_" +:+ domain_name map
    | Some name => name
    end in
  (name, latex_name).

End ContinuousMapImage.

(** The image of a map into {0, 1} whose known points are {0}. *)
Definition two_point_image : ContinuousMapImage.ImageManifoldSubset nat :=
  {| ContinuousMapImage.super_contains := λ p, (p =? 0)%nat;
     ContinuousMapImage.codomain_contains := λ p, (p <? 2)%nat |}.

(** * Properties *)

(** ** The examples of the docstrings *)

Example hooks_three_chain :
  ∀ n, _hooks (3 + n) three_chain = Done {[0%nat := 1; 1%nat := 2; 2%nat := 3]}.
Proof. intros [|n]; vm_compute; reflexivity. Qed.

Example hooks_shape_321 :
  ∀ n, _hooks (6 + n) shape_321 =
       Done {[0%nat := 5; 1%nat := 3; 2%nat := 1; 3%nat := 3; 4%nat := 1; 5%nat := 1]}.
Proof. intros [|n]; vm_compute; reflexivity. Qed.

Example hooks_double_tailed_diamond_2 :
  ∀ n, _hooks (6 + n) double_tailed_diamond_2 =
       Done {[1%nat := 1; 2%nat := 2; 3%nat := 3; 4%nat := 3; 5%nat := 4; 6%nat := 5]}.
Proof. intros [|n]; vm_compute; reflexivity. Qed.

(** C8. The poset with cover edges 0→1, 0→2, 1→3, 2→3 (a single diamond)
    has the hook mapping {0: 1, 1: 2, 2: 2, 3: 3}, whatever fuel above four
    loop iterations the run is given. *)
Theorem hooks_single_diamond :
  ∀ n, _hooks (4 + n) single_diamond =
       Done {[0%nat := 1; 1%nat := 2; 2%nat := 2; 3%nat := 3]}.
Proof. intros [|n]; vm_compute; reflexivity. Qed.

(** ** The greedy extension of a diamond chain *)

Section extension.
Context `{Countable K}.
Implicit Types (P : Poset K) (c : K * K).

Lemma elem_of_candidate_pairs (mins maxs : list K) (mn mx : K) :
  (mn, mx) ∈ candidate_pairs mins maxs ↔ mn ∈ mins ∧ mx ∈ maxs.
Proof.
  unfold candidate_pairs. rewrite list_elem_of_In, in_flat_map. split.
  - intros (i & Hi & Hin). apply in_map_iff in Hin as (j & [= -> ->] & Hj).
    by rewrite !list_elem_of_In.
  - intros [Hmn Hmx]. exists mn. rewrite <- list_elem_of_In. split; [done|].
    apply in_map_iff. exists mx. by rewrite <- list_elem_of_In.
Qed.

(** One pair of the [for] loop: rejected pairs leave the loop running. *)
Lemma try_candidates_skip P index c rest (st : chain) :
  ¬ extends_chain P c →
  try_candidates P index (c :: rest) st = try_candidates P index rest st.
Proof.
  destruct c as [mn mx]. unfold extends_chain. cbn. intros Hno.
  destruct (Nat.eqb_spec (length (lower_covers P mx)) 1); cbn; [|done].
  destruct (Nat.eqb_spec (length (all_paths P mn mx)) 2); [|done].
  by destruct Hno.
Qed.

Lemma try_candidates_take P index c rest (st : chain) :
  extends_chain P c →
  try_candidates P index (c :: rest) st =
    ({| min_elmt := c.1; max_elmt := c.2;
        tabs := record_diamond c.1 c.2 index (tabs st) |}, true).
Proof.
  destruct c as [mn mx]. unfold extends_chain. cbn. intros [-> ->]. done.
Qed.

Lemma try_candidates_first P index cands (st : chain) :
  match try_candidates P index cands st with
  | (st', true) =>
      ∃ pre c post, cands = pre ++ c :: post ∧
        Forall (λ c', ¬ extends_chain P c') pre ∧ extends_chain P c ∧
        st' = {| min_elmt := c.1; max_elmt := c.2;
                 tabs := record_diamond c.1 c.2 index (tabs st) |}
  | (st', false) => st' = st ∧ Forall (λ c', ¬ extends_chain P c') cands
  end.
Proof.
  induction cands as [|c rest IH]; [by cbn|].
  destruct (decide (extends_chain P c)) as [Hyes|Hno].
  - rewrite try_candidates_take by done. by exists [], c, rest.
  - rewrite try_candidates_skip by done.
    destruct (try_candidates P index rest st) as [st' [|]].
    + destruct IH as (pre & c' & post & -> & Hpre & Hc' & ->).
      exists (c :: pre), c', post. split_and!; [done| by constructor |done|done].
    + destruct IH as [-> Hall]. split; [done | by constructor].
Qed.

(** The [for] loop on the candidates of a round: it reports a diamond
    exactly when some candidate passes the two tests, and then it has
    moved to the first such candidate and recorded it. *)
Lemma for_loop_takes_first_valid_pair P index (st : chain) :
  let cands := candidate_pairs (lower_covers P (min_elmt st))
                               (upper_covers P (max_elmt st)) in
  let result := try_candidates P index cands st in
  (∀ mn mx, (mn, mx) ∈ cands ↔
     mn ∈ lower_covers P (min_elmt st) ∧ mx ∈ upper_covers P (max_elmt st)) ∧
  (result.2 = true ↔ ∃ c, c ∈ cands ∧ extends_chain P c) ∧
  (result.2 = true →
     ∃ pre c post, cands = pre ++ c :: post ∧
       Forall (λ c', ¬ extends_chain P c') pre ∧ extends_chain P c ∧
       result.1 = {| min_elmt := c.1; max_elmt := c.2;
                     tabs := record_diamond c.1 c.2 index (tabs st) |}) ∧
  (result.2 = false → result.1 = st).
Proof.
  intros cands result. split; [intros; apply elem_of_candidate_pairs|].
  pose proof (try_candidates_first P index cands st) as Hfirst.
  fold result in Hfirst. destruct result as [st' [|]]; cbn.
  - destruct Hfirst as (pre & c & post & Hcands & Hpre & Hc & ->).
    split_and!; [|by exists pre, c, post|done].
    split; [intros _|done]. exists c. split; [|done].
    rewrite Hcands. set_solver.
  - destruct Hfirst as [-> Hall]. split_and!; [|done|done].
    split; [done|]. intros (c & Hin & Hc).
    rewrite Forall_forall in Hall. by destruct (Hall c Hin).
Qed.

(** The [for] loop skips a prefix of candidates that fail a test. *)
Lemma try_candidates_prefix P index (pre rest : list (K * K)) (st : chain) :
  Forall (λ c, ¬ extends_chain P c) pre →
  try_candidates P index (pre ++ rest) st = try_candidates P index rest st.
Proof.
  induction 1 as [|c pre Hc _ IH]; [done|].
  rewrite <- app_comm_cons, try_candidates_skip by done. apply IH.
Qed.

(** One round of the [while True] loop when some candidate passes. *)
Lemma extend_chain_round_found P index (fuel : nat) (st : chain)
    (pre : list (K * K)) (c : K * K) (post : list (K * K)) :
  candidate_pairs (lower_covers P (min_elmt st)) (upper_covers P (max_elmt st))
    = pre ++ c :: post →
  Forall (λ c', ¬ extends_chain P c') pre → extends_chain P c →
  extend_chain (S fuel) P index st =
  extend_chain fuel P index
    {| min_elmt := c.1; max_elmt := c.2;
       tabs := record_diamond c.1 c.2 index (tabs st) |}.
Proof.
  intros Hcands Hpre Hc. cbn. rewrite Hcands.
  rewrite try_candidates_prefix, try_candidates_take by done. done.
Qed.

(** One round of the [while True] loop when no candidate passes. *)
Lemma extend_chain_round_none P index (fuel : nat) (st : chain) :
  Forall (λ c, ¬ extends_chain P c)
    (candidate_pairs (lower_covers P (min_elmt st)) (upper_covers P (max_elmt st))) →
  extend_chain (S fuel) P index st = Some st.
Proof.
  intros Hnone. cbn.
  rewrite <- (app_nil_r (candidate_pairs _ _)), try_candidates_prefix by done.
  done.
Qed.

(** The first candidate that passes, when one does. *)
Lemma first_valid_candidate P (cands : list (K * K)) :
  (∃ c, c ∈ cands ∧ extends_chain P c) →
  ∃ pre c post, cands = pre ++ c :: post ∧
    Forall (λ c', ¬ extends_chain P c') pre ∧ extends_chain P c.
Proof.
  induction cands as [|c cands IH]; [by intros (c & ?%elem_of_nil & _)|].
  intros (c' & Hin & Hc').
  destruct (decide (extends_chain P c)) as [Hc|Hc]; [by exists [], c, cands|].
  destruct IH as (pre & c'' & post & -> & Hpre & Hc'').
  { exists c'. split; [|done]. apply elem_of_cons in Hin as [->|?]; done. }
  exists (c :: pre), c'', post. split_and!; [done|by constructor|done].
Qed.

(** C4. In a round of the while-True extension loop the candidates are
    the pairs (mn, mx) with mn a lower cover of the chain-bottom and mx an
    upper cover of the chain-top.  When some candidate has a top with
    exactly one lower cover and exactly two directed paths from its
    bottom, the loop goes on from the first such candidate in enumeration
    order, with that pair as the new bottom and top and recorded in the
    tables; when no candidate has, the loop ends and returns the chain as
    it is.  So the loop returns exactly the chains that the greedy
    extension of the spec reaches. *)
Theorem extension_takes_first_valid_pair P index (st : chain) :
  let cands := candidate_pairs (lower_covers P (min_elmt st))
                               (upper_covers P (max_elmt st)) in
  (∀ mn mx, (mn, mx) ∈ cands ↔
     mn ∈ lower_covers P (min_elmt st) ∧ mx ∈ upper_covers P (max_elmt st)) ∧
  ((∃ c, c ∈ cands ∧ extends_chain P c) →
     ∃ pre c post, cands = pre ++ c :: post ∧
       Forall (λ c', ¬ extends_chain P c') pre ∧ extends_chain P c ∧
       ∀ fuel, extend_chain (S fuel) P index st =
               extend_chain fuel P index
                 {| min_elmt := c.1; max_elmt := c.2;
                    tabs := record_diamond c.1 c.2 index (tabs st) |}) ∧
  ((¬ ∃ c, c ∈ cands ∧ extends_chain P c) →
     ∀ fuel, extend_chain (S fuel) P index st = Some st) ∧
  (∀ fuel st', extend_chain fuel P index st = Some st' →
     greedy_extension P index st st') ∧
  (∀ st', greedy_extension P index st st' →
     ∃ fuel, extend_chain fuel P index st = Some st').
Proof.
  intros cands. split_and!.
  - intros; apply elem_of_candidate_pairs.
  - intros (pre & c & post & Hcands & Hpre & Hc)%first_valid_candidate.
    exists pre, c, post. split_and!; [done..|].
    intros fuel. by apply (extend_chain_round_found P index fuel st pre c post).
  - intros Hnone fuel. apply extend_chain_round_none.
    apply Forall_forall. intros c Hin Hc. apply Hnone. by exists c.
  - intros fuel. clear cands. revert st.
    induction fuel as [|fuel IH]; intros st st'; cbn; [done|].
    pose proof (try_candidates_first P index
      (candidate_pairs (lower_covers P (min_elmt st)) (upper_covers P (max_elmt st)))
      st) as Hfirst.
    destruct (try_candidates P index _ st) as [st1 [|]].
    + destruct Hfirst as (pre & c & post & Hcands & Hpre & Hc & ->).
      intros Hrun. apply (greedy_step P index st pre c post st' Hcands Hpre Hc).
      by apply IH.
    + destruct Hfirst as [-> Hnone]. intros [= <-]. by apply greedy_stop.
  - intros st'. clear cands. induction 1 as [st Hnone|st pre c post st' Hcands Hpre Hc _ IH].
    + exists 1%nat. by apply extend_chain_round_none.
    + destruct IH as [fuel Hrun]. exists (S fuel).
      by rewrite (extend_chain_round_found P index fuel st pre c post).
Qed.

End extension.

(** On [Posets.DoubleTailedDiamond(2)] the diamond with bottom 2 and top 5
    is extended by the pair (1, 6), and then no further. *)
Example extension_double_tailed_diamond_2 :
  let st := {| min_elmt := 2%nat; max_elmt := 5%nat;
               tabs := record_diamond 2%nat 5%nat 0 no_tables |} in
  let st' := {| min_elmt := 1%nat; max_elmt := 6%nat;
                tabs := record_diamond 1%nat 6%nat 0
                          (record_diamond 2%nat 5%nat 0 no_tables) |} in
  try_candidates double_tailed_diamond_2 0
    (candidate_pairs (lower_covers double_tailed_diamond_2 2%nat)
                     (upper_covers double_tailed_diamond_2 5%nat)) st = (st', true) ∧
  ∀ n, extend_chain (2 + n) double_tailed_diamond_2 0 st = Some st'.
Proof. split; [|intros n]; vm_compute; reflexivity. Qed.

Lemma extension_takes_first_valid_pair_witness :
  greedy_extension double_tailed_diamond_2 0
    {| min_elmt := 2%nat; max_elmt := 5%nat;
       tabs := record_diamond 2%nat 5%nat 0 no_tables |}
    {| min_elmt := 1%nat; max_elmt := 6%nat;
       tabs := record_diamond 1%nat 6%nat 0
                 (record_diamond 2%nat 5%nat 0 no_tables) |}.
Proof.
  apply (proj1 (proj2 (proj2 (proj2
           (extension_takes_first_valid_pair double_tailed_diamond_2 0
              {| min_elmt := 2%nat; max_elmt := 5%nat;
                 tabs := record_diamond 2%nat 5%nat 0 no_tables |})))) 2%nat).
  vm_compute. reflexivity.
Defined.

(** ** Containment in the image of a continuous map *)

Section image_contains.
Import ContinuousMapImage.
Context {Point : Type}.

(** C10. [__contains__] returns True whenever the inherited test returns
    True; when the inherited test fails it returns False for a point
    outside the codomain of the map and raises NotImplementedError for a
    point of the codomain, so a codomain point the superclass does not
    know is never classified.  When the inherited test only accepts
    codomain points, every point outside the codomain gets False. *)
Theorem contains_three_way (self : ImageManifoldSubset Point) (point : Point) :
  (super_contains self point = true → __contains__ self point = Done true) ∧
  (super_contains self point = false → codomain_contains self point = false →
     __contains__ self point = Done false) ∧
  (super_contains self point = false → codomain_contains self point = true →
     __contains__ self point = Raised NotImplementedError) ∧
  ((∀ q, super_contains self q = true → codomain_contains self q = true) →
     codomain_contains self point = false →
     __contains__ self point = Done false).
Proof.
  unfold __contains__. split_and!.
  - by intros ->.
  - by intros -> ->.
  - by intros -> ->.
  - intros Hsub Hout. destruct (super_contains self point) eqn:Hs.
    + apply Hsub in Hs. congruence.
    + by rewrite Hout.
Qed.

End image_contains.

Lemma contains_three_way_witness :
  ContinuousMapImage.__contains__ two_point_image 0%nat = Done true ∧
  ContinuousMapImage.__contains__ two_point_image 2%nat = Done false ∧
  ContinuousMapImage.__contains__ two_point_image 1%nat = Raised NotImplementedError ∧
  ContinuousMapImage.__contains__ two_point_image 3%nat = Done false.
Proof.
  split_and!.
  - exact (proj1 (contains_three_way two_point_image 0%nat) eq_refl).
  - exact (proj1 (proj2 (contains_three_way two_point_image 2%nat)) eq_refl eq_refl).
  - exact (proj1 (proj2 (proj2 (contains_three_way two_point_image 1%nat)))
             eq_refl eq_refl).
  - apply (proj2 (proj2 (proj2 (contains_three_way two_point_image 3%nat)))).
    + intros [|q]; [reflexivity | discriminate].
    + reflexivity.
Defined.

(** ** The breadth-first computation of the hooks *)

Section propagation.
Context `{Countable K}.
Variable P : Poset K.
Variable t : tables (K:=K).

Lemma bind_Done {A B : Type} (c : outcome K A) (k : A → outcome K B) (b : B) :
  c ≫= k = Done b ↔ ∃ a, c = Done a ∧ k a = Done b.
Proof.
  destruct c as [a| |]; cbn; (split; [intros Hk|intros (a' & Hc & Hk)]);
    try done; [by exists a|congruence].
Qed.

Lemma getitem_Done {V : Type} (d : gmap K V) (key : K) (v : V) :
  getitem d key = Done v ↔ d !! key = Some v.
Proof. unfold getitem. destruct (d !! key); naive_solver. Qed.

Lemma list_getitem_Done {V : Type} (l : list V) (i : nat) (v : V) :
  list_getitem (K:=K) l i = Done v ↔ l !! i = Some v.
Proof. unfold list_getitem. destruct (l !! i); naive_solver. Qed.

(** What [hook_value] returns when it returns. *)
Lemma hook_value_Done (hooks : gmap K Z) (e : K) (h : Z) :
  hook_value P t hooks e = Done h ↔
    (diamond_index t !! e = None ∧ h = order_ideal_cardinality P [e]) ∨
    (∃ i d b h1 h2 hb,
        diamond_index t !! e = Some i ∧ diamonds P !! i = Some d ∧
        min_diamond t !! e = Some b ∧
        hooks !! d1 d = Some h1 ∧ hooks !! d2 d = Some h2 ∧
        hooks !! b = Some hb ∧ h = h1 + h2 - hb).
Proof.
  unfold hook_value. destruct (diamond_index t !! e) as [i|].
  - split.
    + intros Hrun.
      apply bind_Done in Hrun as (d & Hd%list_getitem_Done & Hrun).
      apply bind_Done in Hrun as (h1 & Hh1%getitem_Done & Hrun).
      apply bind_Done in Hrun as (h2 & Hh2%getitem_Done & Hrun).
      apply bind_Done in Hrun as (b & Hb%getitem_Done & Hrun).
      apply bind_Done in Hrun as (hb & Hhb%getitem_Done & [= <-]).
      right. by exists i, d, b, h1, h2, hb.
    + intros [[? _]|(i' & d & b & h1 & h2 & hb & [= <-] & Hd & Hb & Hh1 & Hh2 & Hhb & ->)];
        [done|].
      unfold list_getitem, getitem. rewrite Hd. cbn.
      rewrite Hh1. cbn. rewrite Hh2. cbn. rewrite Hb. cbn. by rewrite Hhb.
  - split; [intros [= <-]; by left|].
    intros [[_ ->]|(? & ? & ? & ? & ? & ? & ? & _)]; done.
Qed.

(** A value computed from [hooks] is not affected by a later assignment
    to a key that was absent. *)
Lemma hook_value_insert (hooks : gmap K Z) (e e' : K) (v h : Z) :
  hooks !! e' = None →
  hook_value P t hooks e = Done h →
  hook_value P t (<[e' := v]> hooks) e = Done h.
Proof.
  intros Hfresh. rewrite !hook_value_Done.
  intros [?|(i & d & b & h1 & h2 & hb & ? & ? & ? & Hh1 & Hh2 & Hhb & ->)];
    [by left|right].
  exists i, d, b, h1, h2, hb.
  rewrite !lookup_insert_ne by congruence. done.
Qed.

(** The [for c in upper_covers] loop appends, in order and once each, the
    covers that were not yet in [enqueued], and adds them to [enqueued]. *)
Lemma enqueue_covers_spec (cs queue : list K) (enqueued : gset K) :
  ∃ added,
    enqueue_covers cs queue enqueued = (queue ++ added, list_to_set added ∪ enqueued) ∧
    NoDup added ∧ ∀ c, c ∈ added ↔ c ∈ cs ∧ c ∉ enqueued.
Proof.
  revert queue enqueued. induction cs as [|c cs IH]; intros queue enqueued; cbn.
  - exists []. rewrite app_nil_r. split_and!; [f_equal; set_solver|constructor|set_solver].
  - destruct (decide (c ∈ enqueued)) as [Hin|Hout].
    + destruct (IH queue enqueued) as (added & -> & Hnd & Hmem).
      exists added. split_and!; [done|done|]. set_solver.
    + destruct (IH (queue ++ [c]) ({[c]} ∪ enqueued)) as (added & -> & Hnd & Hmem).
      exists (c :: added). split_and!.
      * rewrite <- app_assoc. cbn. f_equal. set_solver.
      * constructor; [|done]. rewrite Hmem. set_solver.
      * intros c'. rewrite elem_of_cons, Hmem, elem_of_cons.
        destruct (decide (c' = c)) as [->|]; set_solver.
Qed.

(** What a round of the loop returns when it returns. *)
Lemma bfs_round_Done (e : K) (rest queue' : list K) (enqueued enqueued' : gset K)
    (hooks hooks' : gmap K Z) :
  bfs_round P t e rest enqueued hooks = Done (queue', enqueued', hooks') ↔
  ∃ h, hook_value P t hooks e = Done h ∧
       enqueue_covers (upper_covers P e) rest ({[e]} ∪ enqueued) = (queue', enqueued') ∧
       hooks' = <[e := h]> hooks.
Proof.
  unfold bfs_round. rewrite bind_Done. split.
  - intros (h & Hh & Hrest). exists h. split; [done|].
    destruct (enqueue_covers _ _ _) as [q enq]. by injection Hrest as -> -> ->.
  - intros (h & Hh & -> & ->). by exists h.
Qed.

(** Running [n] rounds and then the loop is running the loop. *)
Lemma compute_hooks_after_rounds (n fuel : nat) (queue queue' : list K)
    (enqueued enqueued' : gset K) (hooks hooks' : gmap K Z) :
  bfs_rounds n P t queue enqueued hooks = Done (queue', enqueued', hooks') →
  compute_hooks (n + fuel) P t queue enqueued hooks =
  compute_hooks fuel P t queue' enqueued' hooks'.
Proof.
  revert queue enqueued hooks.
  induction n as [|n IH]; intros queue enqueued hooks; cbn.
  - by intros [= -> -> ->].
  - destruct queue as [|e rest].
    + intros [= <- <- <-]. by destruct fuel.
    + destruct (bfs_round P t e rest enqueued hooks) as [[[q enq] h]| |]; cbn; [|done..].
      apply IH.
Qed.

Hypothesis contract : PosetContract P.

Lemma upper_cover_not_minimal (e c : K) :
  c ∈ upper_covers P e → c ∉ minimal_elements P.
Proof.
  intros Hc Hmin. apply (covers_dual P contract) in Hc.
  apply (minimal_spec P contract) in Hmin as [_ Hnil].
  rewrite Hnil in Hc. by apply elem_of_nil in Hc.
Qed.

Lemma bfs_inv_init : bfs_inv P t (minimal_elements P) ∅ ∅.
Proof.
  split.
  - apply (minimal_nodup P contract).
  - intros; apply lookup_empty.
  - intros x [? Hx]. by rewrite lookup_empty in Hx.
  - by right.
  - intros e h Hx. by rewrite lookup_empty in Hx.
  - by right.
  - intros x c [? Hx]. by rewrite lookup_empty in Hx.
  - set_solver.
  - intros x [[? Hx]|Hx]; [by rewrite lookup_empty in Hx|].
    by apply (minimal_spec P contract) in Hx as [? _].
Qed.

Lemma bfs_inv_step (e : K) (rest : list K) (enqueued : gset K)
    (hooks : gmap K Z) (h : Z) (queue' : list K) (enqueued' : gset K) :
  bfs_inv P t (e :: rest) enqueued hooks →
  hook_value P t hooks e = Done h →
  enqueue_covers (upper_covers P e) rest ({[e]} ∪ enqueued) = (queue', enqueued') →
  bfs_inv P t queue' enqueued' (<[e := h]> hooks).
Proof.
  intros [Hnd Hpend Hdone Horig Hval Hmin Hclosed Henq Hground] Hh Hloop.
  destruct (enqueue_covers_spec (upper_covers P e) rest ({[e]} ∪ enqueued))
    as (added & Heq & Hadd_nd & Hadded).
  rewrite Hloop in Heq. injection Heq as -> ->.
  apply NoDup_cons in Hnd as [He_rest Hnd_rest].
  assert (hooks !! e = None) as He_none by (apply Hpend; set_solver).
  assert (∀ x, x ∈ added → x ∉ minimal_elements P) as Hadd_min.
  { intros x Hx. apply Hadded in Hx as [Hx _].
    by eapply upper_cover_not_minimal. }
  assert (∀ x, x ∈ added → hooks !! x = None ∧ x ≠ e) as Hadd_new.
  { intros x Hx. apply Hadded in Hx as [_ Hx]. split; [|set_solver].
    apply eq_None_not_Some. intros Hsome. apply Hdone in Hsome. set_solver. }
  split.
  - apply NoDup_app. split_and!; [done| |done].
    intros x Hx Hx'. destruct (Horig x) as [Hin|Hin]; [set_solver| |].
    + apply Hadded in Hx'. set_solver.
    + by apply Hadd_min in Hx'.
  - intros x Hx. apply elem_of_app in Hx as [Hx|Hx].
    + rewrite lookup_insert_ne by set_solver. apply Hpend. set_solver.
    + apply Hadd_new in Hx as [? ?]. by rewrite lookup_insert_ne.
  - intros x Hx. apply lookup_insert_is_Some in Hx as [->|[_ Hx]]; [set_solver|].
    apply Hdone in Hx. set_solver.
  - intros x Hx. apply elem_of_app in Hx as [Hx|Hx]; [|set_solver].
    destruct (Horig x) as [?|?]; [set_solver| |]; [left; set_solver|by right].
  - intros e' h' He'. apply hook_value_insert; [done|].
    apply lookup_insert_Some in He' as [[<- <-]|[_ He']]; [done|].
    by apply Hval.
  - intros x Hx. destruct (Hmin x Hx) as [Hs|Hq].
    + left. apply lookup_insert_is_Some. destruct (decide (e = x)); auto.
    + apply elem_of_cons in Hq as [->|Hq].
      * left. rewrite lookup_insert_eq. by eexists.
      * right. set_solver.
  - intros x c Hx Hc. apply lookup_insert_is_Some in Hx as [<-|[_ Hx]].
    + destruct (decide (c ∈ ({[e]} ∪ enqueued : gset K))) as [?|Hout]; [set_solver|].
      assert (c ∈ added) by (by apply Hadded). set_solver.
    + pose proof (Hclosed x c Hx Hc). set_solver.
  - intros x Hx. apply elem_of_union in Hx as [Hx|Hx].
    + right. set_solver.
    + apply elem_of_union in Hx as [Hx|Hx].
      * left. apply elem_of_singleton in Hx as ->. rewrite lookup_insert_eq. by eexists.
      * destruct (Henq x Hx) as [Hs|Hq].
        -- left. apply lookup_insert_is_Some. destruct (decide (e = x)); auto.
        -- apply elem_of_cons in Hq as [->|Hq].
           ++ left. rewrite lookup_insert_eq. by eexists.
           ++ right. set_solver.
  - intros x [Hx|Hx].
    + apply lookup_insert_is_Some in Hx as [<-|[_ Hx]]; apply Hground; [right; set_solver|by left].
    + apply elem_of_app in Hx as [Hx|Hx]; [apply Hground; right; set_solver|].
      apply Hadded in Hx as [Hx _]. by apply (covers_ground P contract) in Hx as [_ ?].
Qed.

(** The invariant holds when the loop ends. *)
Lemma compute_hooks_inv (fuel : nat) (queue : list K) (enqueued : gset K)
    (hooks result : gmap K Z) :
  bfs_inv P t queue enqueued hooks →
  compute_hooks fuel P t queue enqueued hooks = Done result →
  ∃ enqueued', bfs_inv P t [] enqueued' result.
Proof.
  revert queue enqueued hooks.
  induction fuel as [|fuel IH]; intros queue enqueued hooks Hinv;
    destruct queue as [|e rest]; cbn; try done.
  - intros [= <-]. by exists enqueued.
  - intros [= <-]. by exists enqueued.
  - intros Hrun. apply bind_Done in Hrun as ([[queue' enqueued'] hooks'] & Hround & Hrun).
    apply bfs_round_Done in Hround as (h & Hh & Hloop & ->).
    eapply IH; [|done]. by eapply bfs_inv_step.
Qed.

End propagation.

(** ** The first pass: what the tables hold, and why the loops end *)

Section first_pass.
Context `{Countable K}.
Variable P : Poset K.
Hypothesis contract : PosetContract P.

Lemma no_tables_ok : tables_ok P no_tables.
Proof. intros e i Hi. cbn in Hi. by rewrite lookup_empty in Hi. Qed.

Lemma record_diamond_ok (mn mx a : K) (index : nat) (t : tables) :
  tables_ok P t → (index < length (diamonds P))%nat → mx ∈ upper_covers P a →
  tables_ok P (record_diamond mn mx index t).
Proof.
  intros Hok Hlt Hmx e i. cbn. intros Hi.
  destruct (decide (mx = e)) as [->|Hne].
  - rewrite lookup_insert_eq in Hi. injection Hi as <-.
    rewrite lookup_insert_eq. split_and!; [done|by eexists|by exists a].
  - rewrite lookup_insert_ne in Hi by done. rewrite lookup_insert_ne by done.
    by apply Hok.
Qed.

(** A successful round of the extension loop moves the chain-top to one of
    its upper covers. *)
Lemma try_candidates_found (index : nat) (st st' : chain) :
  try_candidates P index
    (candidate_pairs (lower_covers P (min_elmt st)) (upper_covers P (max_elmt st)))
    st = (st', true) →
  max_elmt st' ∈ upper_covers P (max_elmt st) ∧
  tabs st' = record_diamond (min_elmt st') (max_elmt st') index (tabs st).
Proof.
  intros Hrun.
  pose proof (try_candidates_first P index
    (candidate_pairs (lower_covers P (min_elmt st)) (upper_covers P (max_elmt st)))
    st) as Hfirst.
  rewrite Hrun in Hfirst. destruct Hfirst as (pre & [mn mx] & post & Hcands & _ & _ & ->).
  cbn. split; [|done].
  assert ((mn, mx) ∈ candidate_pairs (lower_covers P (min_elmt st))
                                    (upper_covers P (max_elmt st))) as Hin.
  { rewrite Hcands. apply elem_of_app. right. apply elem_of_cons. by left. }
  by apply elem_of_candidate_pairs in Hin as [_ ?].
Qed.

Lemma try_candidates_not_found (index : nat) (cands : list (K * K)) (st st' : chain) :
  try_candidates P index cands st = (st', false) → st' = st.
Proof.
  intros Hrun. pose proof (try_candidates_first P index cands st) as Hfirst.
  rewrite Hrun in Hfirst. by destruct Hfirst.
Qed.

Lemma extend_chain_ok (fuel index : nat) (st st' : chain) :
  (index < length (diamonds P))%nat →
  tables_ok P (tabs st) →
  extend_chain fuel P index st = Some st' →
  tables_ok P (tabs st').
Proof.
  intros Hlt. revert st. induction fuel as [|fuel IH]; intros st Hok; cbn; [done|].
  destruct (try_candidates P index _ st) as [st1 [|]] eqn:Hrun.
  - apply try_candidates_found in Hrun as [Hup Htabs].
    apply IH. rewrite Htabs. by eapply record_diamond_ok.
  - apply try_candidates_not_found in Hrun as ->. by intros [= <-].
Qed.

Lemma find_chains_ok (fuel index : nat) (ds : list (diamond K)) (t t' : tables) :
  (index + length ds ≤ length (diamonds P))%nat →
  (∀ d, d ∈ ds → d ∈ diamonds P) →
  tables_ok P t →
  find_chains fuel P index ds t = Some t' →
  tables_ok P t'.
Proof.
  revert index t. induction ds as [|d ds IH]; intros index t Hlen Hds Hok; cbn.
  - by intros [= <-].
  - cbn in Hlen.
    destruct (extend_chain fuel P index _) as [st|] eqn:Hext; [|done].
    apply extend_chain_ok in Hext; [|lia|].
    + apply IH; [lia|set_solver|done].
    + cbn. apply (record_diamond_ok _ _ (d1 d)); [done|lia|].
      apply (diamonds_spec P contract d). set_solver.
Qed.

Lemma diamond_tables_ok (fuel : nat) (t : tables) :
  diamond_tables fuel P = Some t → tables_ok P t.
Proof.
  apply find_chains_ok; [cbn; lia|done|apply no_tables_ok].
Qed.

(** Every key of [diamond_index] is a chain-top in the sense of
    [chain_top]. *)
Lemma chain_top_exists (t : tables) (e : K) :
  tables_ok P t → is_Some (diamond_index t !! e) →
  ∃ s1 s2 b, chain_top P t e s1 s2 b.
Proof.
  intros Hok [i Hi]. destruct (Hok e i Hi) as (Hlt & [b Hb] & _).
  apply lookup_lt_is_Some in Hlt as [d Hd].
  exists (d1 d), (d2 d), b, i, d. done.
Qed.

(** A minimal element is never a key of [diamond_index]. *)
Lemma minimal_not_chain_top (t : tables) (e : K) :
  tables_ok P t → e ∈ minimal_elements P → diamond_index t !! e = None.
Proof.
  intros Hok Hmin. destruct (diamond_index t !! e) as [i|] eqn:Hi; [|done].
  destruct (Hok e i Hi) as (_ & _ & a & Ha).
  by destruct (upper_cover_not_minimal P contract a e Ha).
Qed.

(** *** Termination of the breadth-first loop *)

Lemma hook_value_fuel (t : tables) (hooks : gmap K Z) (e : K) :
  hook_value P t hooks e ≠ OutOfFuel.
Proof.
  unfold hook_value, list_getitem, getitem.
  repeat (case_match; cbn; try done).
Qed.

Lemma compute_hooks_terminates (fuel : nat) (t : tables) (queue : list K)
    (enqueued : gset K) (hooks : gmap K Z) :
  (length queue + size (list_to_set (ground P) ∖ enqueued : gset K) ≤ fuel)%nat →
  compute_hooks fuel P t queue enqueued hooks ≠ OutOfFuel.
Proof.
  revert queue enqueued hooks.
  induction fuel as [|fuel IH]; intros queue enqueued hooks Hfuel;
    destruct queue as [|e rest]; cbn in Hfuel |- *; try done; [lia|].
  unfold bfs_round.
  destruct (hook_value P t hooks e) as [h| |] eqn:Hh; cbn; [|done|].
  2:{ by destruct (hook_value_fuel t hooks e). }
  destruct (enqueue_covers_spec (upper_covers P e) rest ({[e]} ∪ enqueued))
    as (added & -> & Hnd & Hadded).
  cbn.
  apply IH. rewrite length_app.
  set (G := list_to_set (ground P) : gset K) in *.
  set (A := list_to_set added : gset K).
  assert (size A = length added) as HA by (by apply size_list_to_set).
  assert (A ## G ∖ (A ∪ ({[e]} ∪ enqueued))) as Hdisj by set_solver.
  assert (A ∪ G ∖ (A ∪ ({[e]} ∪ enqueued)) ⊆ G ∖ enqueued) as Hsub.
  { intros x Hx. apply elem_of_union in Hx as [Hx|Hx]; [|set_solver].
    apply elem_of_list_to_set, Hadded in Hx as [Hx Hout].
    apply (covers_ground P contract) in Hx as [_ Hx]. set_solver. }
  apply subseteq_size in Hsub. rewrite size_union in Hsub by done. lia.
Qed.

Lemma extend_chain_more_fuel (fuel fuel' index : nat) (st st' : chain) :
  (fuel ≤ fuel')%nat →
  extend_chain fuel P index st = Some st' →
  extend_chain fuel' P index st = Some st'.
Proof.
  revert fuel' st. induction fuel as [|fuel IH]; intros fuel' st Hle; [done|].
  destruct fuel' as [|fuel']; [lia|]. cbn.
  destruct (try_candidates P index _ st) as [st1 [|]]; [|done].
  apply IH. lia.
Qed.

(** *** Termination of the extension loop *)

Hypothesis no_cycle : acyclic P.

Lemma covers_tc_ground (x y : K) : tc (covers P) x y → x ∈ ground P ∧ y ∈ ground P.
Proof.
  induction 1 as [x y Hxy|x y z Hxy _ [_ IH]];
    apply (covers_ground P contract) in Hxy as [? ?]; done.
Qed.

(** [seen] lists the chain-tops the loop has gone through, the current
    one included: they are distinct, so there are at most as many as
    elements in the poset. *)
Lemma extend_chain_terminates (fuel index : nat) (st : chain) (seen : list K) :
  NoDup seen →
  (∀ x, x ∈ seen → x ∈ ground P ∧ rtc (covers P) x (max_elmt st)) →
  (length (ground P) < fuel + length seen)%nat →
  is_Some (extend_chain fuel P index st).
Proof.
  revert st seen. induction fuel as [|fuel IH]; intros st seen Hnd Hseen Hlen.
  - assert (length seen ≤ length (ground P))%nat; [|lia].
    apply submseteq_length, NoDup_submseteq; [done|]. intros x Hx. by apply Hseen.
  - cbn. destruct (try_candidates P index _ st) as [st1 [|]] eqn:Hrun; [|by eexists].
    apply try_candidates_found in Hrun as [Hup _].
    apply (IH st1 (max_elmt st1 :: seen)).
    + constructor; [|done]. intros Hin. apply Hseen in Hin as [_ Hback].
      apply (no_cycle (max_elmt st)). eapply tc_rtc_r; [|done]. by apply tc_once.
    + intros x Hx. apply elem_of_cons in Hx as [->|Hx].
      * split; [|done]. by apply (covers_ground P contract) in Hup as [_ ?].
      * apply Hseen in Hx as [? Hx]. split; [done|]. by eapply rtc_r.
    + cbn. lia.
Qed.

Lemma extend_chain_bounded (index : nat) (st : chain) :
  max_elmt st ∈ ground P →
  is_Some (extend_chain (length (ground P)) P index st).
Proof.
  intros Hmax. apply (extend_chain_terminates _ _ _ [max_elmt st]).
  - apply NoDup_singleton.
  - intros x ->%list_elem_of_singleton. done.
  - cbn. lia.
Qed.

Lemma find_chains_terminates (fuel index : nat) (ds : list (diamond K)) (t : tables) :
  (length (ground P) ≤ fuel)%nat →
  (∀ d, d ∈ ds → d ∈ diamonds P) →
  is_Some (find_chains fuel P index ds t).
Proof.
  intros Hfuel. revert index t. induction ds as [|d ds IH]; intros index t Hds; cbn.
  - by eexists.
  - destruct (extend_chain_bounded index
      {| min_elmt := d0 d; max_elmt := d3 d;
         tabs := record_diamond (d0 d) (d3 d) index t |}) as [st Hst].
    { cbn. assert (d3 d ∈ upper_covers P (d1 d)) as Hup.
      { apply (diamonds_spec P contract d). set_solver. }
      by apply (covers_ground P contract) in Hup as [_ ?]. }
    rewrite (extend_chain_more_fuel _ fuel _ _ _ Hfuel Hst).
    apply IH. set_solver.
Qed.

End first_pass.

(** ** The hook mapping *)

Section hook_mapping.
Context `{Countable K}.
Variable P : Poset K.
Hypothesis contract : PosetContract P.

(** What a completed run leaves in [hooks]: every stored value is the one
    [hook_value] computes from the final mapping. *)
Lemma hooks_values (fuel : nat) (t : tables) (hooks : gmap K Z) :
  diamond_tables fuel P = Some t →
  _hooks fuel P = Done hooks →
  ∃ enqueued, bfs_inv P t [] enqueued hooks.
Proof.
  unfold _hooks. intros -> Hrun.
  eapply compute_hooks_inv; [done| |done]. by apply bfs_inv_init.
Qed.

Lemma hook_recurrence_at_key (fuel : nat) (t : tables) (hooks : gmap K Z)
    (e s1 s2 b : K) (h : Z) :
  diamond_tables fuel P = Some t →
  _hooks fuel P = Done hooks →
  chain_top P t e s1 s2 b →
  hooks !! e = Some h →
  ∃ h1 h2 hb, hooks !! s1 = Some h1 ∧ hooks !! s2 = Some h2 ∧
              hooks !! b = Some hb ∧ h = h1 + h2 - hb.
Proof.
  intros Ht Hrun (i & d & Hi & Hd & <- & <- & Hb) He.
  destruct (hooks_values fuel t hooks Ht Hrun) as [enqueued Hinv].
  apply (inv_values _ _ _ _ _ Hinv), hook_value_Done in He
    as [[Hnone _]|(i' & d' & b' & h1 & h2 & hb & Hi' & Hd' & Hb' & Hh1 & Hh2 & Hhb & ->)];
    [congruence|].
  assert (i' = i) as -> by congruence.
  assert (d' = d) as -> by congruence.
  assert (b' = b) as -> by congruence.
  by exists h1, h2, hb.
Qed.

Lemma hook_ideal_at_key (fuel : nat) (t : tables) (hooks : gmap K Z) (e : K) (h : Z) :
  diamond_tables fuel P = Some t →
  _hooks fuel P = Done hooks →
  diamond_index t !! e = None →
  hooks !! e = Some h →
  h = order_ideal_cardinality P [e].
Proof.
  intros Ht Hrun Hnone He.
  destruct (hooks_values fuel t hooks Ht Hrun) as [enqueued Hinv].
  apply (inv_values _ _ _ _ _ Hinv), hook_value_Done in He
    as [[_ ->]|(i' & ? & ? & ? & ? & ? & Hi' & _)]; [done|congruence].
Qed.

Hypothesis no_cycle : acyclic P.

Lemma tc_flip_covers (x y : K) : tc (flip (covers P)) x y → tc (covers P) y x.
Proof.
  induction 1 as [x y Hxy|x y z Hxy _ IH]; [by apply tc_once|].
  eapply tc_r; [done|]. done.
Qed.

(** The covering relation of a finite poset is well founded. *)
Lemma covers_acc (x : K) : Acc (covers P) x.
Proof.
  apply (tc_finite_sn (R:=flip (covers P))).
  - intros e He. by apply tc_flip_covers, no_cycle in He.
  - exists (ground P). intros y Hy.
    by apply tc_flip_covers, covers_tc_ground in Hy as [? _].
Qed.

(** When the queue is empty every element has its hook. *)
Lemma bfs_total (t : tables) (enqueued : gset K) (hooks : gmap K Z) (x : K) :
  bfs_inv P t [] enqueued hooks → x ∈ ground P → is_Some (hooks !! x).
Proof.
  intros Hinv. induction (covers_acc x) as [x _ IH]. intros Hx.
  destruct (lower_covers P x) as [|y ys] eqn:Hlow.
  - destruct (inv_minimal _ _ _ _ _ Hinv x) as [?|Hq]; [|done|by apply elem_of_nil in Hq].
    by apply (minimal_spec P contract).
  - assert (covers P y x) as Hyx.
    { apply (covers_dual P contract). rewrite Hlow. set_solver. }
    assert (is_Some (hooks !! y)) as Hy.
    { apply IH; [done|]. by apply (covers_ground P contract) in Hyx as [? _]. }
    pose proof (inv_closed _ _ _ _ _ Hinv y x Hy Hyx) as Henq.
    destruct (inv_enqueued _ _ _ _ _ Hinv x Henq) as [?|Hq]; [done|].
    by apply elem_of_nil in Hq.
Qed.

(** A completed run gives a hook to exactly the elements of the poset. *)
Lemma hooks_total (fuel : nat) (hooks : gmap K Z) (x : K) :
  _hooks fuel P = Done hooks → (x ∈ ground P ↔ is_Some (hooks !! x)).
Proof.
  intros Hrun. unfold _hooks in Hrun.
  destruct (diamond_tables fuel P) as [t|] eqn:Ht; [|done].
  apply (compute_hooks_inv P t contract) in Hrun as [enqueued Hinv];
    [|by apply bfs_inv_init].
  split; [by eapply bfs_total|].
  intros Hx. apply (inv_ground _ _ _ _ _ Hinv). by left.
Qed.

(** C1. In the mapping a run of the hook computation returns, every
    element e of the poset that is the top of a diamond chain, with sides
    s1 and s2 of its diamond and chain-bottom b as recorded by
    min_diamond, has hook(e) = hook(s1) + hook(s2) - hook(b). *)
Theorem hook_recurrence (fuel : nat) (t : tables) (hooks : gmap K Z) (e s1 s2 b : K) :
  diamond_tables fuel P = Some t →
  _hooks fuel P = Done hooks →
  e ∈ ground P →
  chain_top P t e s1 s2 b →
  ∃ h h1 h2 hb, hooks !! e = Some h ∧ hooks !! s1 = Some h1 ∧
                hooks !! s2 = Some h2 ∧ hooks !! b = Some hb ∧
                h = h1 + h2 - hb.
Proof.
  intros Ht Hrun He Htop.
  destruct (proj1 (hooks_total fuel hooks e Hrun) He) as [h Hh].
  destruct (hook_recurrence_at_key fuel t hooks e s1 s2 b h Ht Hrun Htop Hh)
    as (h1 & h2 & hb & ? & ? & ? & ?).
  by exists h, h1, h2, hb.
Qed.

(** C2. In the mapping a run of the hook computation returns, every
    element e of the poset that is minimal or is not the top of a diamond
    chain has hook(e) equal to the cardinality of the order ideal generated
    by e, and every minimal element has hook 1. *)
Theorem hook_order_ideal (fuel : nat) (t : tables) (hooks : gmap K Z) (e : K) :
  diamond_tables fuel P = Some t →
  _hooks fuel P = Done hooks →
  e ∈ ground P →
  (e ∈ minimal_elements P ∨ diamond_index t !! e = None →
     hooks !! e = Some (order_ideal_cardinality P [e])) ∧
  (e ∈ minimal_elements P → hooks !! e = Some 1).
Proof.
  intros Ht Hrun He.
  destruct (proj1 (hooks_total fuel hooks e Hrun) He) as [h Hh].
  assert (e ∈ minimal_elements P ∨ diamond_index t !! e = None →
          hooks !! e = Some (order_ideal_cardinality P [e])) as Hideal.
  { intros Hcase. rewrite Hh. f_equal.
    apply (hook_ideal_at_key fuel t hooks e h Ht Hrun); [|done].
    destruct Hcase as [Hmin|?]; [|done].
    eapply minimal_not_chain_top; [done| |done]. by eapply diamond_tables_ok. }
  split; [done|]. intros Hmin. rewrite Hideal by (by left). f_equal.
  apply (ideal_minimal P contract); [done|].
  by apply (minimal_spec P contract) in Hmin as [_ ?].
Qed.

(** C5. On a finite poset whose covering relation has no cycle, the
    extension loop started at a base diamond ends within as many rounds as
    the poset has elements, and the whole hook computation ends: with fuel
    for at least as many loop rounds as there are elements and minimal
    elements together, it does not run out of fuel. *)
Theorem hooks_terminate :
  (∀ (index : nat) (d : diamond K) (t : tables), d ∈ diamonds P →
     is_Some (extend_chain (length (ground P)) P index
                {| min_elmt := d0 d; max_elmt := d3 d; tabs := t |})) ∧
  (∀ fuel, (length (ground P) + length (minimal_elements P) ≤ fuel)%nat →
     is_Some (diamond_tables fuel P) ∧ _hooks fuel P ≠ OutOfFuel).
Proof.
  split.
  - intros index d t Hd. apply extend_chain_bounded; [done..|]. cbn.
    assert (d3 d ∈ upper_covers P (d1 d)) as Hup by (by apply (diamonds_spec P contract d)).
    by apply (covers_ground P contract) in Hup as [_ ?].
  - intros fuel Hfuel.
    destruct (find_chains_terminates P contract no_cycle fuel 0 (diamonds P) no_tables)
      as [t Ht]; [lia|done|].
    split; [by exists t|]. unfold _hooks, diamond_tables. rewrite Ht.
    apply (compute_hooks_terminates P contract).
    rewrite difference_empty_L, size_list_to_set by apply (ground_nodup P contract).
    lia.
Qed.

End hook_mapping.

(** ** The Hasse-diagram model keeps the promises of the collaborator *)

Section finite_poset_contract.
Context `{Countable K}.
Variable g : digraph (K:=K).

Lemma neighbors_out_edge (a b : K) :
  b ∈ neighbors_out g a → ∃ outs, (a, outs) ∈ g ∧ b ∈ outs.
Proof.
  unfold neighbors_out.
  destruct (list_find (λ p, p.1 = a) g) as [[i [a' outs]]|] eqn:Hfind.
  - apply list_find_Some in Hfind as (Hi & Ha & _). cbn in Ha. subst a'.
    intros Hb. exists outs. split; [|done]. apply list_elem_of_lookup. by exists i.
  - intros Hb. by apply elem_of_nil in Hb.
Qed.

Lemma elem_of_vertices (x : K) :
  x ∈ vertices g ↔ x ∈ g.*1 ∨ x ∈ concat g.*2.
Proof.
  unfold vertices.
  rewrite elem_of_app, list_elem_of_filter, !elem_of_remove_dups.
  destruct (decide (x ∈ g.*1)); naive_solver.
Qed.

Lemma NoDup_vertices : NoDup (vertices g).
Proof.
  unfold vertices. apply NoDup_app. split_and!.
  - apply NoDup_remove_dups.
  - intros x Hx Hx'. rewrite elem_of_remove_dups in Hx.
    by apply list_elem_of_filter in Hx' as [? _].
  - apply NoDup_filter, NoDup_remove_dups.
Qed.

Lemma edge_vertices (a : K) (outs : list K) (b : K) :
  (a, outs) ∈ g → b ∈ outs → a ∈ vertices g ∧ b ∈ vertices g.
Proof.
  intros Hin Hb. rewrite !elem_of_vertices. split.
  - left. by apply (list_elem_of_fmap_2 fst) in Hin.
  - right. apply list_elem_of_In, in_concat. exists outs.
    rewrite <- !list_elem_of_In. split; [|done].
    by apply (list_elem_of_fmap_2 snd) in Hin.
Qed.

Lemma neighbors_out_vertices (a b : K) :
  b ∈ neighbors_out g a → a ∈ vertices g ∧ b ∈ vertices g.
Proof.
  intros (outs & Hin & Hb)%neighbors_out_edge. by eapply edge_vertices.
Qed.

Lemma neighbors_dual (a b : K) :
  b ∈ neighbors_out g a ↔ a ∈ neighbors_in g b.
Proof.
  unfold neighbors_in. rewrite list_elem_of_filter. split; [|by intros [? _]].
  intros Hb. split; [done|]. by apply neighbors_out_vertices in Hb as [? _].
Qed.

Lemma elem_of_ordered_pairs (l : list K) (x y : K) :
  (x, y) ∈ ordered_pairs l → x ∈ l ∧ y ∈ l.
Proof.
  induction l as [|z l IH]; cbn; [by intros ?%elem_of_nil|].
  intros [Hin|Hin]%elem_of_app.
  - apply list_elem_of_fmap in Hin as (y' & [= -> ->] & Hy). set_solver.
  - apply IH in Hin as [? ?]. set_solver.
Qed.

Lemma hasse_diamonds_shape (d : diamond K) :
  d ∈ hasse_diamonds g →
  d1 d ∈ neighbors_out g (d0 d) ∧ d2 d ∈ neighbors_out g (d0 d) ∧
  d3 d ∈ neighbors_out g (d1 d) ∧ d3 d ∈ neighbors_out g (d2 d).
Proof.
  unfold hasse_diamonds. rewrite list_elem_of_In, in_flat_map.
  intros (w & _ & Hd). apply in_flat_map in Hd as ([x y] & Hxy & Hd).
  apply in_map_iff in Hd as (z & <- & Hz).
  apply list_elem_of_In in Hxy. apply list_elem_of_In in Hz.
  apply elem_of_ordered_pairs in Hxy as [Hx Hy].
  apply list_elem_of_filter in Hz as [Hzy Hzx].
  by cbn in *.
Qed.

Lemma order_ideal_fixed (n : nat) (I : gset K) :
  (∀ x, x ∈ I → neighbors_in g x = []) → order_ideal g n I = I.
Proof.
  intros Hmin. induction n as [|n IH]; cbn; [done|].
  assert (list_to_set (flat_map (neighbors_in g) (elements I)) = (∅ : gset K)) as ->.
  { apply set_eq. intros x. rewrite elem_of_list_to_set, list_elem_of_In, in_flat_map.
    split; [|by intros ?%not_elem_of_empty].
    intros (y & Hy & Hx). apply list_elem_of_In in Hy. apply list_elem_of_In in Hx.
    apply elem_of_elements in Hy. rewrite (Hmin y Hy) in Hx.
    by apply elem_of_nil in Hx. }
  by rewrite (right_id_L ∅ (∪)).
Qed.

Lemma ideal_cardinality_minimal (e : K) :
  neighbors_in g e = [] → ideal_cardinality g [e] = 1.
Proof.
  intros Hmin. unfold ideal_cardinality.
  rewrite list_to_set_singleton_L, order_ideal_fixed, size_singleton; [done|].
  by intros x ->%elem_of_singleton.
Qed.

(** The model of [FinitePoset] keeps every promise of [PosetContract],
    for every adjacency dictionary. *)
Lemma FinitePoset_contract : PosetContract (FinitePoset g).
Proof.
  split; cbn.
  - apply NoDup_vertices.
  - apply neighbors_dual.
  - apply neighbors_out_vertices.
  - intros e. unfold sources. rewrite list_elem_of_filter. naive_solver.
  - apply NoDup_filter, NoDup_vertices.
  - apply hasse_diamonds_shape.
  - intros e _. apply ideal_cardinality_minimal.
Qed.

(** A ranking that increases along every edge rules out cycles. *)
Lemma FinitePoset_acyclic (rank : K → nat) :
  Forall (λ p : K * list K, Forall (λ b, (rank p.1 < rank b)%nat) p.2) g →
  acyclic (FinitePoset g).
Proof.
  intros Hrank.
  assert (∀ x y, tc (covers (FinitePoset g)) x y → (rank x < rank y)%nat) as Hlt.
  { assert (∀ x y, covers (FinitePoset g) x y → (rank x < rank y)%nat) as Hstep.
    { intros x y (outs & Hin & Hy)%neighbors_out_edge.
      rewrite Forall_forall in Hrank. specialize (Hrank _ Hin). cbn in Hrank.
      rewrite Forall_forall in Hrank. by apply Hrank. }
    induction 1 as [x y Hxy|x y z Hxy _ IH]; [by apply Hstep|].
    apply Hstep in Hxy. lia. }
  intros e He. apply Hlt in He. lia.
Qed.

End finite_poset_contract.

(** ** The cached attribute and its accessors *)

Section public_surface.
Context `{Countable K}.
Variable P : Poset K.
Variable fuel : nat.

Lemma alloc_spec (d : gmap K Z) (s s' : instance) (l : nat) :
  alloc d s = (l, s') →
  objects s !! l = None ∧ objects s' = <[l := d]> (objects s) ∧
  cached s' = cached s ∧ evaluations s' = evaluations s.
Proof.
  unfold alloc. intros [= <- <-]. cbn. split_and!; try done.
  apply not_elem_of_dom, is_fresh.
Qed.

Lemma read_hooks_hit (s : instance) (c : nat) :
  cached s = Some c → read_hooks fuel P s = (Done c, s).
Proof. unfold read_hooks. by intros ->. Qed.

(** A successful read leaves the value cached; it either found it cached
    or ran the body once and stored its result. *)
Lemma read_hooks_Done (s s' : instance) (c : nat) :
  valid s →
  read_hooks fuel P s = (Done c, s') →
  cached s' = Some c ∧ is_Some (objects s' !! c) ∧
  ((cached s = Some c ∧ s' = s) ∨
   (cached s = None ∧ _hooks fuel P = Done (deref s' c) ∧
    evaluations s' = S (evaluations s))).
Proof.
  unfold read_hooks, valid. destruct (cached s) as [c'|] eqn:Hc.
  - intros Hval [= <- <-]. split_and!; [done|done|by left].
  - intros _. destruct (_hooks fuel P) as [hooks| |]; [|done..].
    cbn. intros [= <- <-]. cbn. unfold deref. cbn.
    rewrite !lookup_insert_eq. split_and!; [done|by eexists|by right].
Qed.

(** C9. A call of [get_hooks] that returns hands out a new dictionary
    object, different from the cached one and with the same contents, and
    runs the body of [_hooks] at most once, not at all when the value was
    already cached.  Whatever the caller then writes into the returned
    dictionary, later calls see the cached mapping unchanged: [get_hooks]
    returns again a new object holding the mapping first returned,
    [get_hook] answers as before, and neither runs the body of [_hooks]
    again. *)
Theorem get_hooks_defensive_copy (s s1 : instance) (l1 : nat) :
  valid s →
  get_hooks fuel P s = (Done l1, s1) →
  ∃ c hooks,
    cached s1 = Some c ∧ c ≠ l1 ∧ valid s1 ∧
    objects s1 !! c = Some hooks ∧ objects s1 !! l1 = Some hooks ∧
    (cached s = None → _hooks fuel P = Done hooks) ∧
    (evaluations s1 ≤ S (evaluations s))%nat ∧
    (is_Some (cached s) → evaluations s1 = evaluations s) ∧
    ∀ d : gmap K Z,
      let s' := mutate l1 d s1 in
      (∃ l2 s2, get_hooks fuel P s' = (Done l2, s2) ∧ l2 ≠ l1 ∧ l2 ≠ c ∧
                objects s2 !! l2 = Some hooks ∧
                evaluations s2 = evaluations s1) ∧
      (∀ e, get_hook fuel P e s' = (getitem hooks e, s') ∧
            (get_hook fuel P e s').1 = (get_hook fuel P e s1).1).
Proof.
  intros Hvalid. unfold get_hooks.
  destruct (read_hooks fuel P s) as [[c| |] s0] eqn:Hread; [|done..].
  destruct (alloc (deref s0 c) s0) as [l s0'] eqn:Halloc. intros [= -> ->].
  apply read_hooks_Done in Hread as (Hc0 & [hooks Hhooks] & Hcase); [|done].
  apply alloc_spec in Halloc as (Hfresh & Hobj & Hc1 & Hev).
  assert (c ≠ l1) as Hne by congruence.
  assert (deref s0 c = hooks) as Hderef by (unfold deref; by rewrite Hhooks).
  rewrite Hderef in *.
  assert (objects s1 !! c = Some hooks) as Hc_obj.
  { rewrite Hobj. by rewrite lookup_insert_ne. }
  assert (cached s1 = Some c) as Hcached by congruence.
  exists c, hooks. split_and!; try done.
  - unfold valid. rewrite Hcached. by eexists.
  - rewrite Hobj. apply lookup_insert_eq.
  - intros Hnone. destruct Hcase as [[? _]|(_ & ? & _)]; [congruence|done].
  - destruct Hcase as [[_ ->]|(_ & _ & ?)]; lia.
  - intros Hsome. destruct Hcase as [[_ ->]|(Hnone & _)]; [done|].
    rewrite Hnone in Hsome. by destruct Hsome.
  - intros d. set (s' := mutate l1 d s1).
    assert (cached s' = Some c) as Hcached' by done.
    assert (objects s' !! c = Some hooks) as Hc_obj'.
    { subst s'. cbn. by rewrite lookup_insert_ne. }
    assert (deref s' c = hooks) as Hderef' by (unfold deref; by rewrite Hc_obj').
    assert (deref s1 c = hooks) as Hderef1 by (unfold deref; by rewrite Hc_obj).
    split.
    + rewrite (read_hooks_hit s' c Hcached'), Hderef'.
      destruct (alloc hooks s') as [l2 s2] eqn:Halloc2.
      apply alloc_spec in Halloc2 as (Hfresh2 & Hobj2 & _ & Hev2).
      exists l2, s2. split_and!; [done| | | |done].
      * intros ->. subst s'. cbn in Hfresh2. by rewrite lookup_insert_eq in Hfresh2.
      * congruence.
      * rewrite Hobj2. apply lookup_insert_eq.
    + intros e. unfold get_hook.
      rewrite (read_hooks_hit s' c Hcached'), (read_hooks_hit s1 c Hcached).
      by rewrite Hderef', Hderef1.
Qed.

(** A call that raises caches nothing: the next call runs the body of
    [_hooks] again and raises the same exception. *)
Lemma get_hooks_raises_again (s s1 : instance) (e : exn K) :
  get_hooks fuel P s = (Raised e, s1) →
  cached s1 = None ∧ evaluations s1 = S (evaluations s) ∧
  ∃ s2, get_hooks fuel P s1 = (Raised e, s2) ∧
        evaluations s2 = S (evaluations s1).
Proof.
  unfold get_hooks, read_hooks, alloc. destruct (cached s) as [c|] eqn:Hc; [done|].
  destruct (_hooks fuel P) as [hooks|e'|] eqn:Hrun; [done| |done].
  intros [= <- <-]. cbn [cached evaluations objects].
  split_and!; [done..|]. by eexists.
Qed.

(** On a fresh instance [get_hook] looks the element up in the mapping the
    run returns. *)
Lemma get_hook_completed_run (hooks : gmap K Z) (e : K) :
  _hooks fuel P = Done hooks →
  (get_hook fuel P e new_instance).1 = getitem hooks e.
Proof.
  intros Hrun. unfold get_hook, read_hooks. cbn [cached new_instance].
  rewrite Hrun. cbn. unfold deref. cbn. by rewrite lookup_insert_eq.
Qed.

(** A fresh instance is valid, and writing into a dictionary keeps an
    instance valid. *)
Lemma new_instance_valid : valid (K:=K) new_instance.
Proof. done. Qed.

Lemma mutate_valid (l : nat) (d : gmap K Z) (s : instance) :
  valid s → valid (mutate l d s).
Proof.
  unfold valid, mutate. cbn. destruct (cached s) as [c|]; [|done].
  intros Hc. apply lookup_insert_is_Some. destruct (decide (l = c)); auto.
Qed.

End public_surface.

(** X15. When the run completes, [get_hook] returns the hook of every
    element of the poset and raises [KeyError] exactly on the other
    keys. *)
Lemma get_hook_total `{Countable K} (P : Poset K) (fuel : nat)
    (hooks : gmap K Z) (e : K) :
  PosetContract P → acyclic P →
  _hooks fuel P = Done hooks →
  (e ∈ ground P → ∃ h, hooks !! e = Some h ∧
                       (get_hook fuel P e new_instance).1 = Done h) ∧
  (e ∉ ground P → (get_hook fuel P e new_instance).1 = Raised (KeyError e)).
Proof.
  intros Hcontract Hacyclic Hrun.
  rewrite (get_hook_completed_run P fuel hooks e Hrun). unfold getitem.
  pose proof (hooks_total P Hcontract Hacyclic fuel hooks e Hrun) as Htotal.
  split; intros He.
  - apply Htotal in He as [h Hh]. exists h. by rewrite Hh.
  - destruct (hooks !! e) as [h|] eqn:Hh; [|done].
    destruct He. apply Htotal. by eexists.
Qed.

(** ** The example posets are well formed *)

Lemma single_diamond_contract : PosetContract single_diamond.
Proof. apply FinitePoset_contract. Qed.

Lemma single_diamond_acyclic : acyclic single_diamond.
Proof.
  apply (FinitePoset_acyclic _ (λ x, x)). repeat constructor.
Qed.

Lemma shape_3222_contract : PosetContract shape_3222.
Proof. apply FinitePoset_contract. Qed.

Lemma shape_3222_acyclic : acyclic shape_3222.
Proof.
  apply (FinitePoset_acyclic _ (λ x, 9 - x)%nat). repeat constructor.
Qed.

(** ** The claims on the single diamond *)

Lemma hook_recurrence_witness :
  PosetContract single_diamond ∧ acyclic single_diamond ∧
  ∃ h h1 h2 hb : Z,
    ({[0%nat := 1; 1%nat := 2; 2%nat := 2; 3%nat := 3]} : gmap nat Z) !! 3%nat = Some h ∧
    ({[0%nat := 1; 1%nat := 2; 2%nat := 2; 3%nat := 3]} : gmap nat Z) !! 1%nat = Some h1 ∧
    ({[0%nat := 1; 1%nat := 2; 2%nat := 2; 3%nat := 3]} : gmap nat Z) !! 2%nat = Some h2 ∧
    ({[0%nat := 1; 1%nat := 2; 2%nat := 2; 3%nat := 3]} : gmap nat Z) !! 0%nat = Some hb ∧
    h = h1 + h2 - hb.
Proof.
  split; [apply single_diamond_contract|].
  split; [apply single_diamond_acyclic|].
  apply (hook_recurrence single_diamond single_diamond_contract
           single_diamond_acyclic 4 (record_diamond 0%nat 3%nat 0 no_tables)).
  - vm_compute. reflexivity.
  - vm_compute. reflexivity.
  - vm_compute. set_solver.
  - exists 0%nat, (0, 1, 2, 3)%nat. vm_compute. done.
Defined.

Lemma hook_order_ideal_witness :
  (0%nat ∈ minimal_elements single_diamond ∨
     diamond_index (record_diamond 0%nat 3%nat 0 no_tables) !! 0%nat = None →
   ({[0%nat := 1; 1%nat := 2; 2%nat := 2; 3%nat := 3]} : gmap nat Z) !! 0%nat =
     Some (order_ideal_cardinality single_diamond [0%nat])) ∧
  (0%nat ∈ minimal_elements single_diamond →
   ({[0%nat := 1; 1%nat := 2; 2%nat := 2; 3%nat := 3]} : gmap nat Z) !! 0%nat = Some 1).
Proof.
  apply (hook_order_ideal single_diamond single_diamond_contract
           single_diamond_acyclic 4 (record_diamond 0%nat 3%nat 0 no_tables)).
  - vm_compute. reflexivity.
  - vm_compute. reflexivity.
  - vm_compute. set_solver.
Defined.

Lemma hooks_terminate_witness :
  (∀ (index : nat) (d : diamond nat) (t : tables), d ∈ diamonds single_diamond →
     is_Some (extend_chain (length (ground single_diamond)) single_diamond index
                {| min_elmt := d0 d; max_elmt := d3 d; tabs := t |})) ∧
  (∀ fuel, (length (ground single_diamond) +
            length (minimal_elements single_diamond) ≤ fuel)%nat →
     is_Some (diamond_tables fuel single_diamond) ∧
     _hooks fuel single_diamond ≠ OutOfFuel).
Proof.
  apply (hooks_terminate single_diamond single_diamond_contract
           single_diamond_acyclic).
Defined.

Lemma get_hooks_defensive_copy_witness :
  let hooks : gmap nat Z := {[0%nat := 1; 1%nat := 2; 2%nat := 2; 3%nat := 3]} in
  let s1 := {| objects := {[0%nat := hooks; 1%nat := hooks]};
               cached := Some 0%nat; evaluations := 1 |} in
  get_hooks 4 single_diamond new_instance = (Done 1%nat, s1) ∧
  ∃ c hooks',
    cached s1 = Some c ∧ c ≠ 1%nat ∧ valid s1 ∧
    objects s1 !! c = Some hooks' ∧ objects s1 !! 1%nat = Some hooks' ∧
    (cached (K:=nat) new_instance = None → _hooks 4 single_diamond = Done hooks') ∧
    (evaluations s1 ≤ S (evaluations (K:=nat) new_instance))%nat ∧
    (is_Some (cached (K:=nat) new_instance) →
       evaluations s1 = evaluations (K:=nat) new_instance) ∧
    ∀ d : gmap nat Z,
      let s' := mutate 1%nat d s1 in
      (∃ l2 s2, get_hooks 4 single_diamond s' = (Done l2, s2) ∧ l2 ≠ 1%nat ∧ l2 ≠ c ∧
                objects s2 !! l2 = Some hooks' ∧
                evaluations s2 = evaluations s1) ∧
      (∀ e, get_hook 4 single_diamond e s' = (getitem hooks' e, s') ∧
            (get_hook 4 single_diamond e s').1 = (get_hook 4 single_diamond e s1).1).
Proof.
  intros hooks s1.
  assert (get_hooks 4 single_diamond new_instance = (Done 1%nat, s1)) as Hrun.
  { vm_compute. reflexivity. }
  split; [exact Hrun|].
  exact (get_hooks_defensive_copy single_diamond 4 new_instance s1 1%nat
           new_instance_valid Hrun).
Defined.

(** ** A Young diagram on which the breadth-first order fails

    In the shape [[3,2,2,2]] the corner cell 0 is the top of the diamond
    with bottom 4 and sides 1 and 3.  Cell 1 also covers the minimal cell
    2, so the traversal reaches 0 through 1 after two steps, while the side
    3 is three steps away from the minimal cells. *)

(** C3. On the shape [[3,2,2,2]] the loop reaches, after five rounds, a
    state in which the chain-top 0 is at the head of the queue while its
    side 3 has no hook yet (3 is not even enqueued); the round that
    dequeues 0 raises KeyError(3). *)
Theorem shape_3222_side_not_ready :
  let t := record_diamond 8%nat 5%nat 2
             (record_diamond 6%nat 3%nat 1
                (record_diamond 4%nat 0%nat 0 no_tables)) in
  let hooks : gmap nat Z :=
    {[2%nat := 1; 8%nat := 1; 1%nat := 5; 6%nat := 2; 7%nat := 2]} in
  let enqueued : gset nat :=
    {[2%nat; 8%nat; 1%nat; 6%nat; 7%nat; 0%nat; 4%nat; 5%nat]} in
  (∀ n, diamond_tables (1 + n) shape_3222 = Some t) ∧
  chain_top shape_3222 t 0%nat 1%nat 3%nat 4%nat ∧
  bfs_rounds 5 shape_3222 t (minimal_elements shape_3222) ∅ ∅ =
    Done ([0; 4; 5]%nat, enqueued, hooks) ∧
  (∀ n, compute_hooks (5 + n) shape_3222 t (minimal_elements shape_3222) ∅ ∅ =
        compute_hooks n shape_3222 t [0; 4; 5]%nat enqueued hooks) ∧
  hooks !! 3%nat = None ∧ (3%nat ∉ enqueued) ∧
  bfs_round shape_3222 t 0%nat [4; 5]%nat enqueued hooks = Raised (KeyError 3%nat).
Proof.
  intros t hooks enqueued.
  assert (bfs_rounds 5 shape_3222 t (minimal_elements shape_3222) ∅ ∅ =
          Done ([0; 4; 5]%nat, enqueued, hooks)) as Hrounds.
  { vm_compute. reflexivity. }
  split_and!.
  - intros n. vm_compute. reflexivity.
  - exists 0%nat, (4, 1, 3, 0)%nat. clear Hrounds. vm_compute. repeat split.
  - exact Hrounds.
  - intros n. apply (compute_hooks_after_rounds shape_3222 t 5 n). exact Hrounds.
  - vm_compute. reflexivity.
  - vm_compute. set_solver.
  - vm_compute. reflexivity.
Qed.

(** The failure does not depend on the order in which the collaborator
    lists minimal elements and covers. *)
Example shape_3222_reversed_raises :
  ∀ n, _hooks (9 + n) shape_3222_reversed = Raised (KeyError 3%nat).
Proof. intros n. vm_compute. reflexivity. Qed.

(** C6. On the shape [[3,2,2,2]], a well-formed poset without cycles, the
    hook computation raises KeyError(3) whatever the fuel, so [get_hook]
    fails with a lookup error on every element of the poset. *)
Theorem shape_3222_get_hook_raises :
  PosetContract shape_3222 ∧ acyclic shape_3222 ∧
  ground shape_3222 = [0; 1; 2; 3; 4; 5; 6; 7; 8]%nat ∧
  (∀ n, _hooks (6 + n) shape_3222 = Raised (KeyError 3%nat)) ∧
  (∀ n e, (get_hook (6 + n) shape_3222 e new_instance).1 = Raised (KeyError 3%nat)).
Proof.
  split; [apply shape_3222_contract|].
  split; [apply shape_3222_acyclic|].
  split; [vm_compute; reflexivity|].
  assert (∀ n, _hooks (6 + n) shape_3222 = Raised (KeyError 3%nat)) as Hrun.
  { intros n. vm_compute. reflexivity. }
  split; [done|]. intros n e. unfold get_hook, read_hooks. cbn [cached new_instance].
  by rewrite Hrun.
Qed.

(** * Further properties of the first pass *)

Section first_pass_tables.
Context `{Countable K}.
Variable P : Poset K.

Lemma tables_grow_refl (t : tables (K:=K)) : tables_grow t t.
Proof. by unfold tables_grow. Qed.

Lemma tables_grow_trans (t1 t2 t3 : tables (K:=K)) :
  tables_grow t1 t2 → tables_grow t2 t3 → tables_grow t1 t3.
Proof. unfold tables_grow. intros (? & ? & ?) (? & ? & ?). set_solver. Qed.

Lemma record_diamond_grow (mn mx : K) (index : nat) (t : tables (K:=K)) :
  tables_grow t (record_diamond mn mx index t) ∧
  mx ∈ dom (diamond_index (record_diamond mn mx index t)) ∧
  mn ∈ dom (max_diamond (record_diamond mn mx index t)).
Proof.
  unfold tables_grow. cbn. rewrite !dom_insert_L. set_solver.
Qed.

Lemma record_diamond_keys_ok (mn mx : K) (index : nat) (t : tables (K:=K)) :
  (index < length (diamonds P))%nat → keys_ok P t →
  keys_ok P (record_diamond mn mx index t).
Proof.
  intros Hlt (Hdom & Hidx & Hmax). unfold keys_ok. cbn. split_and!.
  - rewrite !dom_insert_L. by rewrite Hdom.
  - intros e i [[_ <-]|[_ Hi]]%lookup_insert_Some; [done|by eapply Hidx].
  - intros mn' mx' [[_ <-]|[_ Hmx]]%lookup_insert_Some;
      rewrite dom_insert_L; [set_solver|]. apply Hmax in Hmx. set_solver.
Qed.

(** The [for] loop either leaves the tables alone or records one pair. *)
Lemma try_candidates_tabs (index : nat) (cands : list (K * K)) (st st' : chain (K:=K))
    (found : bool) :
  try_candidates P index cands st = (st', found) →
  tabs st' = tabs st ∨
  tabs st' = record_diamond (min_elmt st') (max_elmt st') index (tabs st).
Proof.
  intros Hrun. pose proof (try_candidates_first P index cands st) as Hfirst.
  rewrite Hrun in Hfirst. destruct found.
  - destruct Hfirst as (_ & c & _ & _ & _ & _ & ->). by right.
  - destruct Hfirst as [-> _]. by left.
Qed.

Lemma extend_chain_keys (fuel index : nat) (st st' : chain (K:=K)) :
  (index < length (diamonds P))%nat →
  extend_chain fuel P index st = Some st' →
  (keys_ok P (tabs st) → keys_ok P (tabs st')) ∧ tables_grow (tabs st) (tabs st').
Proof.
  intros Hlt. revert st. induction fuel as [|fuel IH]; intros st; cbn; [done|].
  destruct (try_candidates P index _ st) as [st1 [|]] eqn:Hrun.
  - intros Hext. apply IH in Hext as [Hok Hgrow].
    apply try_candidates_tabs in Hrun as [Htabs|Htabs]; rewrite Htabs in *.
    + done.
    + split.
      * intros ?. by apply Hok, record_diamond_keys_ok.
      * eapply tables_grow_trans; [|done]. apply record_diamond_grow.
  - intros [= <-]. apply try_candidates_tabs in Hrun as [->|Htabs].
    + split; [done|apply tables_grow_refl].
    + rewrite Htabs. split.
      * intros ?. by apply record_diamond_keys_ok.
      * apply record_diamond_grow.
Qed.

Lemma find_chains_keys (fuel index : nat) (ds : list (diamond K)) (t t' : tables (K:=K)) :
  (index + length ds ≤ length (diamonds P))%nat →
  find_chains fuel P index ds t = Some t' →
  (keys_ok P t → keys_ok P t') ∧ tables_grow t t' ∧
  ∀ d, d ∈ ds → d3 d ∈ dom (diamond_index t') ∧ d0 d ∈ dom (max_diamond t').
Proof.
  revert index t. induction ds as [|d ds IH]; intros index t Hlen; cbn.
  - intros [= <-]. split_and!; [done|apply tables_grow_refl|].
    by intros d ?%elem_of_nil.
  - cbn in Hlen.
    destruct (extend_chain fuel P index _) as [st|] eqn:Hext; [|done].
    intros Hrest. apply extend_chain_keys in Hext as [Hok1 Hgrow1]; [|lia].
    apply IH in Hrest as (Hok2 & Hgrow2 & Htops); [|lia]. cbn in Hok1, Hgrow1.
    destruct (record_diamond_grow (d0 d) (d3 d) index t) as (Hgrow0 & Htop & Hbot).
    assert (tables_grow (record_diamond (d0 d) (d3 d) index t) t') as Hgrow
      by (by eapply tables_grow_trans).
    split_and!.
    + intros ?. apply Hok2, Hok1, record_diamond_keys_ok; [lia|done].
    + by eapply tables_grow_trans.
    + intros d' [->|Hd']%elem_of_cons; [|by apply Htops].
      destruct Hgrow as (_ & ? & ?). set_solver.
Qed.

(** X4. After the first pass [min_diamond] and [diamond_index] have the
    same keys, every stored index is a position of [diamonds], every
    value of [max_diamond] is a key of [diamond_index], and the top and
    bottom of every base diamond are keys of [diamond_index] and
    [max_diamond]: the lookups [diamonds[diamond_index[e]]] and
    [min_diamond[e]] of the second pass cannot fail. *)
Theorem diamond_tables_keys (fuel : nat) (t : tables (K:=K)) :
  diamond_tables fuel P = Some t →
  dom (min_diamond t) = dom (diamond_index t) ∧
  (∀ e i, diamond_index t !! e = Some i → (i < length (diamonds P))%nat) ∧
  (∀ mn mx, max_diamond t !! mn = Some mx → mx ∈ dom (diamond_index t)) ∧
  (∀ d, d ∈ diamonds P →
     d3 d ∈ dom (diamond_index t) ∧ d0 d ∈ dom (max_diamond t)).
Proof.
  intros Hrun. apply find_chains_keys in Hrun as (Hok & _ & Htops); [|cbn; lia].
  destruct Hok as (? & ? & ?); [|done].
  split_and!; cbn.
  - by rewrite !dom_empty_L.
  - intros e i Hi. by rewrite lookup_empty in Hi.
  - intros mn mx Hmx. by rewrite lookup_empty in Hmx.
Qed.

(** X5. When the extension loop ends, no pair of a lower cover of the
    chain-bottom and an upper cover of the chain-top passes the two
    tests: the chain it returns cannot be extended further. *)
Theorem extend_chain_maximal (fuel index : nat) (st st' : chain (K:=K)) :
  extend_chain fuel P index st = Some st' →
  Forall (λ c, ¬ extends_chain P c)
    (candidate_pairs (lower_covers P (min_elmt st')) (upper_covers P (max_elmt st'))).
Proof.
  revert st. induction fuel as [|fuel IH]; intros st; cbn; [done|].
  pose proof (try_candidates_first P index
    (candidate_pairs (lower_covers P (min_elmt st)) (upper_covers P (max_elmt st)))
    st) as Hfirst.
  destruct (try_candidates P index _ st) as [st1 [|]]; [apply IH|].
  destruct Hfirst as [-> Hnone]. by intros [= <-].
Qed.

(** X6. The extension loop grows the chain by as many steps above as
    below: the chain-top it returns lies some number of covers above the
    one it started from and the chain-bottom the same number of covers
    below; and when the end points it started from were recorded in the
    tables under [index], so are the end points it returns. *)
Theorem extend_chain_outward (fuel index : nat) (st st' : chain (K:=K)) :
  (∀ a b, a ∈ lower_covers P b → b ∈ upper_covers P a) →
  extend_chain fuel P index st = Some st' →
  (∃ k, nsteps (covers P) k (max_elmt st) (max_elmt st') ∧
        nsteps (covers P) k (min_elmt st') (min_elmt st)) ∧
  (min_diamond (tabs st) !! max_elmt st = Some (min_elmt st) →
   diamond_index (tabs st) !! max_elmt st = Some index →
   min_diamond (tabs st') !! max_elmt st' = Some (min_elmt st') ∧
   diamond_index (tabs st') !! max_elmt st' = Some index).
Proof.
  intros Hdual. revert st. induction fuel as [|fuel IH]; intros st; cbn; [done|].
  pose proof (try_candidates_first P index
    (candidate_pairs (lower_covers P (min_elmt st)) (upper_covers P (max_elmt st)))
    st) as Hfirst.
  destruct (try_candidates P index _ st) as [st1 [|]].
  - destruct Hfirst as (pre & [mn mx] & post & Hcands & _ & _ & ->).
    assert ((mn, mx) ∈ candidate_pairs (lower_covers P (min_elmt st))
                                      (upper_covers P (max_elmt st))) as Hin.
    { rewrite Hcands. apply elem_of_app. right. apply elem_of_cons. by left. }
    apply elem_of_candidate_pairs in Hin as [Hmn Hmx].
    intros Hext. apply IH in Hext as [(k & Hup & Hdown) Hrec]. cbn in *. split.
    + exists (S k). split; [by eapply nsteps_l|].
      eapply nsteps_r; [done|]. by apply Hdual.
    + intros _ _. apply Hrec; apply lookup_insert_eq.
  - destruct Hfirst as [-> _]. intros [= <-]. split; [|done].
    exists 0%nat. split; constructor.
Qed.

End first_pass_tables.

(** * Further properties of the breadth-first pass *)

Section breadth_first.
Context `{Countable K}.
Variable P : Poset K.
Variable t : tables (K:=K).

(** The rounds of the loop can be run in two batches. *)
Lemma bfs_rounds_add (n m : nat) (queue : list K) (enqueued : gset K)
    (hooks : gmap K Z) :
  bfs_rounds (n + m) P t queue enqueued hooks =
  (st ← bfs_rounds n P t queue enqueued hooks;
   bfs_rounds m P t st.1.1 st.1.2 st.2).
Proof.
  revert queue enqueued hooks.
  induction n as [|n IH]; intros queue enqueued hooks; cbn; [done|].
  destruct queue as [|e rest]; cbn; [by destruct m|].
  destruct (bfs_round P t e rest enqueued hooks) as [[[q enq] h]| |]; cbn; [|done..].
  apply IH.
Qed.

Lemma bfs_rounds_reached (n : nat) (queue queue' : list K)
    (enqueued enqueued' : gset K) (hooks hooks' : gmap K Z) :
  reached_from_below P queue hooks →
  bfs_rounds n P t queue enqueued hooks = Done (queue', enqueued', hooks') →
  reached_from_below P queue' hooks'.
Proof.
  revert queue enqueued hooks.
  induction n as [|n IH]; intros queue enqueued hooks Hinv; cbn.
  - by intros [= <- <- <-].
  - destruct queue as [|e rest]; [by intros [= <- <- <-]|].
    intros Hrun. apply bind_Done in Hrun as ([[q enq] h] & Hround & Hrun).
    apply bfs_round_Done in Hround as (v & _ & Hloop & ->).
    eapply IH; [|done]. cbn.
    destruct (enqueue_covers_spec (upper_covers P e) rest ({[e]} ∪ enqueued))
      as (added & Heq & _ & Hadded).
    rewrite Hloop in Heq. injection Heq as -> ->.
    assert (∀ y, is_Some (hooks !! y) → is_Some (<[e := v]> hooks !! y)) as Hkeep.
    { intros y Hy. apply lookup_insert_is_Some. destruct (decide (e = y)); auto. }
    assert (is_Some (<[e := v]> hooks !! e)) as He
      by (rewrite lookup_insert_eq; by eexists).
    assert (∀ x, x ∈ e :: rest ∨ is_Some (hooks !! x) →
              x ∈ minimal_elements P ∨
              ∃ y, is_Some (<[e := v]> hooks !! y) ∧ x ∈ upper_covers P y) as Hold.
    { intros x Hx. destruct (Hinv x Hx) as [?|(y & ? & ?)]; [by left|].
      right. exists y. auto. }
    intros x [[Hx|Hx]%elem_of_app|Hx].
    + apply Hold. left. set_solver.
    + apply Hadded in Hx as [Hx _]. right. by exists e.
    + apply lookup_insert_is_Some in Hx as [<-|[_ Hx]]; apply Hold; [left; set_solver|by right].
Qed.

(** X7. Whenever an element is about to be dequeued, it is a minimal
    element or at least one of its lower covers already has its hook;
    this is all the breadth-first order gives. *)
Theorem dequeued_after_one_lower_cover (n : nat) (e : K) (rest : list K)
    (enqueued : gset K) (hooks : gmap K Z) :
  bfs_rounds n P t (minimal_elements P) ∅ ∅ = Done (e :: rest, enqueued, hooks) →
  e ∈ minimal_elements P ∨ ∃ y, is_Some (hooks !! y) ∧ e ∈ upper_covers P y.
Proof.
  intros Hrun. eapply (bfs_rounds_reached n) in Hrun.
  - apply Hrun. left. set_solver.
  - intros x [Hx|[? Hx]]; [by left|by rewrite lookup_empty in Hx].
Qed.

Hypothesis contract : PosetContract P.

Lemma bfs_rounds_inv (n : nat) (queue queue' : list K)
    (enqueued enqueued' : gset K) (hooks hooks' : gmap K Z) :
  bfs_inv P t queue enqueued hooks →
  bfs_rounds n P t queue enqueued hooks = Done (queue', enqueued', hooks') →
  bfs_inv P t queue' enqueued' hooks' ∧ hooks ⊆ hooks' ∧ enqueued ⊆ enqueued'.
Proof.
  revert queue enqueued hooks.
  induction n as [|n IH]; intros queue enqueued hooks Hinv; cbn.
  - by intros [= <- <- <-].
  - destruct queue as [|e rest]; [by intros [= <- <- <-]|].
    intros Hrun. apply bind_Done in Hrun as ([[q enq] h] & Hround & Hrun).
    apply bfs_round_Done in Hround as (v & Hv & Hloop & ->).
    pose proof (bfs_inv_step P t contract e rest enqueued hooks v q enq Hinv Hv Hloop)
      as Hinv'.
    apply IH in Hrun as (Hfinal & Hsub & Hsub'); [|done]. cbn in Hsub, Hsub'.
    split_and!; [done| |].
    + etrans; [|done]. apply insert_subseteq, (inv_pending _ _ _ _ _ Hinv). set_solver.
    + etrans; [|done].
      destruct (enqueue_covers_spec (upper_covers P e) rest ({[e]} ∪ enqueued))
        as (added & Heq & _). rewrite Hloop in Heq. injection Heq as _ ->. set_solver.
Qed.

(** X8. At every moment of the loop no element stands twice in the
    queue, no element of the queue has a hook yet, every element with a
    hook is in [enqueued], and all of them are elements of the poset: an
    element is dequeued at most once. *)
Theorem bfs_processes_once (n : nat) (queue : list K) (enqueued : gset K)
    (hooks : gmap K Z) :
  bfs_rounds n P t (minimal_elements P) ∅ ∅ = Done (queue, enqueued, hooks) →
  NoDup queue ∧ (∀ x, x ∈ queue → hooks !! x = None) ∧
  dom hooks ⊆ enqueued ∧
  (∀ x, x ∈ queue ∨ is_Some (hooks !! x) → x ∈ ground P).
Proof.
  intros Hrun. apply bfs_rounds_inv in Hrun as [Hinv _]; [|by apply bfs_inv_init].
  destruct Hinv as [Hnd Hpend Hdone _ _ _ _ _ Hground]. split_and!; try done.
  - intros x Hx%elem_of_dom. by apply Hdone.
  - intros x [?|?]; apply Hground; auto.
Qed.

Lemma compute_hooks_extends (fuel : nat) (queue : list K) (enqueued : gset K)
    (hooks result : gmap K Z) :
  bfs_inv P t queue enqueued hooks →
  compute_hooks fuel P t queue enqueued hooks = Done result →
  hooks ⊆ result.
Proof.
  revert queue enqueued hooks.
  induction fuel as [|fuel IH]; intros queue enqueued hooks Hinv;
    destruct queue as [|e rest]; cbn; try done; try by intros [= <-].
  intros Hrun. apply bind_Done in Hrun as ([[q enq] h] & Hround & Hrun).
  apply bfs_round_Done in Hround as (v & Hv & Hloop & ->).
  pose proof (bfs_inv_step P t contract e rest enqueued hooks v q enq Hinv Hv Hloop)
    as Hinv'.
  apply IH in Hrun; [|done]. cbn in Hrun.
  etrans; [|done]. apply insert_subseteq, (inv_pending _ _ _ _ _ Hinv). set_solver.
Qed.

(** X9. A hook, once stored, is never changed: the mapping held after
    any number of rounds is contained in the mapping the loop returns. *)
Theorem hooks_written_once (n fuel : nat) (queue : list K) (enqueued : gset K)
    (hooks result : gmap K Z) :
  bfs_rounds n P t (minimal_elements P) ∅ ∅ = Done (queue, enqueued, hooks) →
  compute_hooks fuel P t (minimal_elements P) ∅ ∅ = Done result →
  hooks ⊆ result.
Proof.
  intros Hrounds Hrun.
  assert (bfs_inv P t (minimal_elements P) ∅ ∅) as Hinit by (by apply bfs_inv_init).
  revert Hrounds Hrun Hinit. generalize (minimal_elements P) (∅ : gset K) (∅ : gmap K Z).
  revert fuel. induction n as [|n IH]; intros fuel q0 enq0 h0; cbn.
  - intros [= <- <- <-] Hrun Hinv. by eapply compute_hooks_extends.
  - destruct q0 as [|e rest].
    + intros [= <- <- <-] Hrun Hinv. by eapply compute_hooks_extends.
    + intros Hrounds Hrun Hinv. destruct fuel as [|fuel]; [done|]. cbn in Hrun.
      destruct (bfs_round P t e rest enq0 h0) as [[[q enq] h]| |] eqn:Hround; [|done..].
      cbn in Hrounds, Hrun.
      apply bfs_round_Done in Hround as (v & Hv & Hloop & ->).
      eapply IH; [done..|]. by eapply bfs_inv_step.
Qed.

(** What [hook_value] raises when it raises: a [KeyError] on a side or on
    the chain-bottom of the element, which has no hook. *)
Lemma hook_value_Raised (hooks : gmap K Z) (e : K) (x : exn K) :
  tables_ok P t →
  hook_value P t hooks e = Raised x →
  ∃ s1 s2 b k, chain_top P t e s1 s2 b ∧ x = KeyError k ∧
               (k = s1 ∨ k = s2 ∨ k = b) ∧ hooks !! k = None.
Proof.
  intros Hok. unfold hook_value.
  destruct (diamond_index t !! e) as [i|] eqn:Hi; [|done].
  destruct (Hok e i Hi) as (Hlt & [b Hb] & _).
  apply lookup_lt_is_Some in Hlt as [d Hd].
  unfold list_getitem, getitem. rewrite Hd, Hb. cbn.
  assert (chain_top P t e (d1 d) (d2 d) b) as Htop by (by exists i, d).
  destruct (hooks !! d1 d) as [h1|] eqn:H1; cbn.
  2:{ intros [= <-]. exists (d1 d), (d2 d), b, (d1 d). split_and!; auto. }
  destruct (hooks !! d2 d) as [h2|] eqn:H2; cbn.
  2:{ intros [= <-]. exists (d1 d), (d2 d), b, (d2 d). split_and!; auto. }
  destruct (hooks !! b) as [hb|] eqn:H3; cbn; [done|].
  intros [= <-]. exists (d1 d), (d2 d), b, b. split_and!; auto.
Qed.

Lemma compute_hooks_Raised (fuel : nat) (queue : list K) (enqueued : gset K)
    (hooks : gmap K Z) (x : exn K) :
  bfs_inv P t queue enqueued hooks →
  compute_hooks fuel P t queue enqueued hooks = Raised x →
  ∃ e hooks', e ∈ ground P ∧ hook_value P t hooks' e = Raised x.
Proof.
  revert queue enqueued hooks.
  induction fuel as [|fuel IH]; intros queue enqueued hooks Hinv;
    destruct queue as [|e rest]; cbn; try done.
  unfold bfs_round at 1.
  destruct (hook_value P t hooks e) as [v| |] eqn:Hv; cbn; [|intros [= <-]|done].
  - destruct (enqueue_covers (upper_covers P e) rest ({[e]} ∪ enqueued))
      as [q enq] eqn:Hloop. cbn.
    apply IH. by eapply bfs_inv_step.
  - exists e, hooks. split; [|done].
    apply (inv_ground _ _ _ _ _ Hinv). right. set_solver.
Qed.

End breadth_first.

(** * Further properties of a run of [_hooks] *)

Section runs.
Context `{Countable K}.
Variable P : Poset K.
Hypothesis contract : PosetContract P.

(** X2. A run of [_hooks] that raises, raises [KeyError] on a side or on
    the chain-bottom of an element of the poset that is the top of a
    diamond chain: it never raises [IndexError], nor [KeyError] on
    [min_diamond]. *)
Theorem hooks_raise_missing_dependency (fuel : nat) (x : exn K) :
  _hooks fuel P = Raised x →
  ∃ t e s1 s2 b k,
    diamond_tables fuel P = Some t ∧ e ∈ ground P ∧
    chain_top P t e s1 s2 b ∧ x = KeyError k ∧ (k = s1 ∨ k = s2 ∨ k = b).
Proof.
  unfold _hooks. destruct (diamond_tables fuel P) as [t|] eqn:Ht; [|done].
  intros Hrun.
  apply (compute_hooks_Raised P t contract) in Hrun as (e & hooks & He & Hraise);
    [|by apply bfs_inv_init].
  apply hook_value_Raised in Hraise as (s1 & s2 & b & k & Htop & -> & Hk & _);
    [|exact (diamond_tables_ok P contract fuel t Ht)].
  by exists t, e, s1, s2, b, k.
Qed.

Lemma compute_hooks_no_tables (fuel : nat) (queue : list K) (enqueued : gset K)
    (hooks : gmap K Z) (x : exn K) :
  compute_hooks fuel P no_tables queue enqueued hooks ≠ Raised x.
Proof.
  revert queue enqueued hooks.
  induction fuel as [|fuel IH]; intros queue enqueued hooks;
    destruct queue as [|e rest]; cbn; try done.
  unfold bfs_round, hook_value. cbn. rewrite lookup_empty. cbn.
  destruct (enqueue_covers _ _ _) as [q enq]. apply IH.
Qed.

Hypothesis no_cycle : acyclic P.

(** X1. The mapping a run of [_hooks] returns has exactly the elements
    of the poset as its keys. *)
Theorem hooks_keys_are_elements (fuel : nat) (hooks : gmap K Z) :
  _hooks fuel P = Done hooks → dom hooks = list_to_set (ground P).
Proof.
  intros Hrun. apply set_eq. intros x.
  rewrite elem_of_dom, elem_of_list_to_set.
  symmetry. exact (hooks_total P contract no_cycle fuel hooks x Hrun).
Qed.

(** X3. On a poset without diamonds the run never raises: given fuel for
    as many rounds as there are elements and minimal elements together,
    it returns a mapping, and the hook of every element is the
    cardinality of the order ideal it generates. *)
Theorem hooks_without_diamonds (fuel : nat) :
  diamonds P = [] →
  (length (ground P) + length (minimal_elements P) ≤ fuel)%nat →
  ∃ hooks, _hooks fuel P = Done hooks ∧
    ∀ e, e ∈ ground P → hooks !! e = Some (order_ideal_cardinality P [e]).
Proof.
  intros Hnone Hfuel.
  assert (diamond_tables fuel P = Some no_tables) as Ht.
  { unfold diamond_tables. by rewrite Hnone. }
  destruct (_hooks fuel P) as [hooks|x|] eqn:Hrun.
  - exists hooks. split; [done|]. intros e He.
    destruct (proj1 (hooks_total P contract no_cycle fuel hooks e Hrun) He) as [h Hh].
    rewrite Hh. f_equal.
    by apply (hook_ideal_at_key P contract fuel no_tables hooks e h).
  - unfold _hooks in Hrun. rewrite Ht in Hrun.
    by apply compute_hooks_no_tables in Hrun.
  - unfold _hooks in Hrun. rewrite Ht in Hrun.
    apply (compute_hooks_terminates P contract) in Hrun; [done|].
    rewrite difference_empty_L, size_list_to_set by apply (ground_nodup P contract).
    lia.
Qed.

End runs.

(** * Further properties of the accessors *)

Section accessors.
Context `{Countable K}.
Variable P : Poset K.
Variable fuel : nat.

(** X10. [get_hook] and [get_hooks] agree: when [get_hooks] returns a
    dictionary, [get_hook(e)] on the same instance returns the entry of
    [e] in it, and raises [KeyError(e)] when there is none. *)
Theorem get_hook_agrees_with_get_hooks (s s1 : instance) (l : nat) (e : K) :
  valid s →
  get_hooks fuel P s = (Done l, s1) →
  (get_hook fuel P e s).1 = getitem (deref s1 l) e ∧
  (get_hook fuel P e s1).1 = getitem (deref s1 l) e.
Proof.
  intros Hvalid Hrun. unfold get_hooks in Hrun.
  destruct (read_hooks fuel P s) as [[c| |] s0] eqn:Hread; [|done..].
  destruct (alloc (deref s0 c) s0) as [l' s0'] eqn:Halloc.
  injection Hrun as -> ->.
  pose proof Hread as Hread'.
  apply read_hooks_Done in Hread' as (Hc0 & [hooks Hhooks] & _); [|done].
  apply alloc_spec in Halloc as (Hfresh & Hobjs & Hcached & _).
  assert (c ≠ l) as Hne by congruence.
  assert (deref s0 c = hooks) as Hderef0 by (unfold deref; by rewrite Hhooks).
  assert (deref s1 l = hooks) as ->.
  { unfold deref. by rewrite Hobjs, lookup_insert_eq, Hderef0. }
  split.
  - unfold get_hook. by rewrite Hread, Hderef0.
  - unfold get_hook. rewrite (read_hooks_hit P fuel s1 c) by congruence.
    cbn. unfold deref. by rewrite Hobjs, lookup_insert_ne, Hhooks.
Qed.

End accessors.

(** * The printed form and the names *)

Lemma pretty_N_go_no_space (x : N) (s : string) :
  no_space s → no_space (pretty_N_go x s).
Proof.
  revert s. induction (N.lt_wf_0 x) as [x _ IH]; intros s Hs.
  destruct (decide (x = 0)%N) as [->|Hx]; [by rewrite pretty_N_go_0|].
  rewrite pretty_N_go_step by lia. apply IH.
  - apply N.div_lt; lia.
  - split; [|done]. unfold pretty_N_char. by repeat case_match.
Qed.

Lemma pretty_nat_no_space (n : nat) : no_space (pretty n).
Proof.
  unfold pretty, pretty_nat, pretty, pretty_N.
  case_decide; [by cbn|]. by apply pretty_N_go_no_space.
Qed.

Lemma append_nil (s : string) : "" +:+ s = s.
Proof. reflexivity. Qed.

Lemma append_cons (c : ascii) (s1 s2 : string) :
  String c s1 +:+ s2 = String c (s1 +:+ s2).
Proof. reflexivity. Qed.

(** A string is cut in one way only at its first space. *)
Lemma split_at_first_space (s1 s2 r1 r2 : string) :
  no_space s1 → no_space s2 →
  s1 +:+ String " " r1 = s2 +:+ String " " r2 → s1 = s2 ∧ r1 = r2.
Proof.
  revert s2. induction s1 as [|c1 s1 IH]; intros [|c2 s2];
    rewrite ?append_nil, ?append_cons; cbn [no_space].
  - by intros _ _ [= ->].
  - intros _ [Hc _] [= <- _]. done.
  - intros [Hc _] _ [= -> _]. done.
  - intros [_ H1] [_ H2] [= -> Heq]. apply IH in Heq as [-> ->]; done.
Qed.

Lemma append_assoc (s1 s2 s3 : string) :
  (s1 +:+ s2) +:+ s3 = s1 +:+ (s2 +:+ s3).
Proof.
  induction s1 as [|c s1 IH]; [done|]. rewrite !append_cons. by f_equal.
Qed.

Lemma append_inv_head (s r1 r2 : string) : s +:+ r1 = s +:+ r2 → r1 = r2.
Proof.
  induction s as [|c s IH]; [done|]. rewrite !append_cons. intros [= ?]. auto.
Qed.

(** X11. The printed form tells posets apart: two printed forms are equal
    only when the numbers of elements are equal and both posets, or
    neither, have a distinguished linear extension. *)
Theorem repr_injective (n n' : nat) (b b' : bool) :
  _repr_ n b = _repr_ n' b' → n = n' ∧ b = b'.
Proof.
  assert (∀ m c, _repr_ m c =
            "Finite d-complete poset containing " +:+ pretty m +:+
            String " " ("elements" +:+
              (if c then " with distinguished linear extension" else "")))
    as Hshape.
  { intros m [|]; unfold _repr_; cbv zeta.
    - rewrite !append_assoc. done.
    - done. }
  rewrite !Hshape. intros Heq%append_inv_head.
  apply split_at_first_space in Heq as [Hn Hb]; [|apply pretty_nat_no_space..].
  split; [by apply (inj pretty)|]. by destruct b, b'.
Qed.

Section image_names.
Import ContinuousMapImage.

Lemma py_or_nonempty (x : option string) (y : string) : y ≠ "" → py_or x y ≠ "".
Proof. unfold py_or. destruct x as [s|]; [|done]. by case_decide. Qed.

(** X12. [__init__] keeps the names it is given, even empty ones, and a
    name given alone is also the LaTeX name.  A name left out is built
    from the name of the map and of its domain, with "f" standing for a
    map name that is [None] or empty, so that its first part is never
    empty; the LaTeX name left out likewise, falling back on the name of
    the map when the map has no LaTeX name. *)
Theorem init_names (map : ContinuousMap) (name latex_name : option string) :
  let result := __init__ map name latex_name in
  (∀ x, name = Some x → result.1 = x) ∧
  (∀ y, latex_name = Some y → result.2 = y) ∧
  (∀ x, name = Some x → latex_name = None → result.2 = x) ∧
  ∃ m ml, m ≠ "" ∧ ml ≠ "" ∧
    (name = None → result.1 = m +:+ "_" +:+ domain_name map) ∧
    (name = None → latex_name = None →
       result.2 = ml +:+ "(" +:+ domain_latex_name map +:+ ")") ∧
    (_name map = None ∨ _name map = Some "" → m = "f") ∧
    (∀ x, _name map = Some x → x ≠ "" → m = x) ∧
    (_latex_name map = None ∨ _latex_name map = Some "" → ml = m) ∧
    (∀ y, _latex_name map = Some y → y ≠ "" → ml = y).
Proof.
  cbv zeta. unfold __init__. cbv zeta. split_and!.
  - by intros x ->.
  - by intros y ->.
  - by intros x -> ->.
  - exists (py_or (_name map) "f"), (py_or (_latex_name map) (py_or (_name map) "f")).
    split_and!.
    + by apply py_or_nonempty.
    + by apply py_or_nonempty, py_or_nonempty.
    + by intros ->.
    + by intros -> ->.
    + by intros [->| ->].
    + intros x -> Hx. unfold py_or. by case_decide.
    + by intros [->| ->].
    + intros y -> Hy. unfold py_or at 1. by case_decide.
Qed.

(** X13. With the two tests of [__contains__] as calls that may raise:
    the answer is True exactly when the inherited test returns True, and
    the codomain test is then not consulted; it is False exactly when the
    inherited test returns False and the codomain test returns False; the
    method raises its own NotImplementedError exactly when the inherited
    test returns False and the codomain test returns True; and the
    exception of a test comes out exactly when the inherited test raises
    it, or the inherited test returns False and the codomain test raises
    it.  On tests that always return, this is [__contains__]. *)
Theorem contains_outcomes {Point E : Type} (inherited in_codomain : Point → call E)
    (point : Point) :
  let result := contains_calls inherited in_codomain point in
  (result = Answer true ↔ inherited point = Returned true) ∧
  (result = Answer false ↔
     inherited point = Returned false ∧ in_codomain point = Returned false) ∧
  (result = NotImplemented ↔
     inherited point = Returned false ∧ in_codomain point = Returned true) ∧
  (∀ e, result = Propagated e ↔
     inherited point = Threw e ∨
     (inherited point = Returned false ∧ in_codomain point = Threw e)) ∧
  (∀ (self : ImageManifoldSubset Point) (b : bool),
     let total := contains_calls (E:=E) (λ p, Returned (super_contains self p))
                    (λ p, Returned (codomain_contains self p)) point in
     (total = Answer b ↔ __contains__ self point = Done b) ∧
     (total = NotImplemented ↔
        __contains__ self point = Raised NotImplementedError) ∧
     (∀ e, total ≠ Propagated e)).
Proof.
  cbv zeta. unfold contains_calls, __contains__. split_and!.
  - destruct (inherited point) as [[|]|e]; [|destruct (in_codomain point) as [[|]|e']|];
      split; congruence.
  - destruct (inherited point) as [[|]|e]; [|destruct (in_codomain point) as [[|]|e']|];
      split; (congruence || (intros [? ?]; congruence) || done).
  - destruct (inherited point) as [[|]|e]; [|destruct (in_codomain point) as [[|]|e']|];
      split; (congruence || (intros [? ?]; congruence) || done).
  - intros e0.
    destruct (inherited point) as [[|]|e]; [|destruct (in_codomain point) as [[|]|e']|];
      split; try congruence; try (intros [?|[? ?]]; congruence);
      intros [= ->]; auto.
  - intros self b.
    destruct (super_contains self point), (codomain_contains self point), b; cbn;
      split_and!; try (split; congruence); congruence.
Qed.

End image_names.

(** * The further properties on the example posets *)

Example repr_single_diamond :
  _repr_ 4 false = "Finite d-complete poset containing 4 elements" ∧
  _repr_ 12 true =
    "Finite d-complete poset containing 12 elements with distinguished linear extension".
Proof. split; vm_compute; reflexivity. Qed.

Lemma three_chain_acyclic : acyclic three_chain.
Proof. apply (FinitePoset_acyclic _ (λ x, x)). repeat constructor. Qed.

Lemma hooks_keys_are_elements_witness :
  dom ({[0%nat := 1; 1%nat := 2; 2%nat := 2; 3%nat := 3]} : gmap nat Z) =
  list_to_set (ground single_diamond).
Proof.
  apply (hooks_keys_are_elements single_diamond single_diamond_contract
           single_diamond_acyclic 4).
  vm_compute. reflexivity.
Defined.

Lemma hooks_raise_missing_dependency_witness :
  ∃ t e s1 s2 b k,
    diamond_tables 6 shape_3222 = Some t ∧ e ∈ ground shape_3222 ∧
    chain_top shape_3222 t e s1 s2 b ∧
    KeyError 3%nat = KeyError k ∧ (k = s1 ∨ k = s2 ∨ k = b).
Proof.
  apply (hooks_raise_missing_dependency shape_3222 shape_3222_contract 6).
  vm_compute. reflexivity.
Defined.

Lemma hooks_without_diamonds_witness :
  ∃ hooks, _hooks 5 three_chain = Done hooks ∧
    ∀ e, e ∈ ground three_chain →
         hooks !! e = Some (order_ideal_cardinality three_chain [e]).
Proof.
  apply (hooks_without_diamonds three_chain (FinitePoset_contract _)
           three_chain_acyclic 5).
  - vm_compute. reflexivity.
  - vm_compute. repeat constructor.
Defined.

Lemma diamond_tables_keys_witness :
  let t := record_diamond 8%nat 5%nat 2
             (record_diamond 6%nat 3%nat 1
                (record_diamond 4%nat 0%nat 0 no_tables)) in
  dom (min_diamond t) = dom (diamond_index t) ∧
  (∀ e i, diamond_index t !! e = Some i → (i < length (diamonds shape_3222))%nat) ∧
  (∀ mn mx, max_diamond t !! mn = Some mx → mx ∈ dom (diamond_index t)) ∧
  (∀ d, d ∈ diamonds shape_3222 →
     d3 d ∈ dom (diamond_index t) ∧ d0 d ∈ dom (max_diamond t)).
Proof.
  intros t. apply (diamond_tables_keys shape_3222 1 t).
  vm_compute. reflexivity.
Defined.

Lemma extend_chain_maximal_witness :
  Forall (λ c, ¬ extends_chain double_tailed_diamond_2 c)
    (candidate_pairs (lower_covers double_tailed_diamond_2 1%nat)
                     (upper_covers double_tailed_diamond_2 6%nat)).
Proof.
  apply (extend_chain_maximal double_tailed_diamond_2 2 0
           {| min_elmt := 2%nat; max_elmt := 5%nat;
              tabs := record_diamond 2%nat 5%nat 0 no_tables |}
           {| min_elmt := 1%nat; max_elmt := 6%nat;
              tabs := record_diamond 1%nat 6%nat 0
                        (record_diamond 2%nat 5%nat 0 no_tables) |}).
  vm_compute. reflexivity.
Defined.

Lemma extend_chain_outward_witness :
  let st := {| min_elmt := 2%nat; max_elmt := 5%nat;
               tabs := record_diamond 2%nat 5%nat 0 no_tables |} in
  let st' := {| min_elmt := 1%nat; max_elmt := 6%nat;
                tabs := record_diamond 1%nat 6%nat 0
                          (record_diamond 2%nat 5%nat 0 no_tables) |} in
  (∃ k, nsteps (covers double_tailed_diamond_2) k (max_elmt st) (max_elmt st') ∧
        nsteps (covers double_tailed_diamond_2) k (min_elmt st') (min_elmt st)) ∧
  (min_diamond (tabs st) !! max_elmt st = Some (min_elmt st) →
   diamond_index (tabs st) !! max_elmt st = Some 0%nat →
   min_diamond (tabs st') !! max_elmt st' = Some (min_elmt st') ∧
   diamond_index (tabs st') !! max_elmt st' = Some 0%nat).
Proof.
  intros st st'. apply (extend_chain_outward double_tailed_diamond_2 2 0 st st').
  - intros a b Hab. by apply neighbors_dual.
  - vm_compute. reflexivity.
Defined.

Lemma dequeued_after_one_lower_cover_witness :
  0%nat ∈ minimal_elements shape_3222 ∨
  ∃ y, is_Some (({[2%nat := 1; 8%nat := 1; 1%nat := 5; 6%nat := 2; 7%nat := 2]}
                   : gmap nat Z) !! y) ∧
       0%nat ∈ upper_covers shape_3222 y.
Proof.
  apply (dequeued_after_one_lower_cover shape_3222
           (record_diamond 8%nat 5%nat 2
              (record_diamond 6%nat 3%nat 1
                 (record_diamond 4%nat 0%nat 0 no_tables)))
           5 0%nat [4; 5]%nat
           {[2%nat; 8%nat; 1%nat; 6%nat; 7%nat; 0%nat; 4%nat; 5%nat]}).
  vm_compute. reflexivity.
Defined.

Lemma bfs_processes_once_witness :
  let hooks : gmap nat Z :=
    {[2%nat := 1; 8%nat := 1; 1%nat := 5; 6%nat := 2; 7%nat := 2]} in
  let enqueued : gset nat :=
    {[2%nat; 8%nat; 1%nat; 6%nat; 7%nat; 0%nat; 4%nat; 5%nat]} in
  NoDup [0; 4; 5]%nat ∧ (∀ x, x ∈ [0; 4; 5]%nat → hooks !! x = None) ∧
  dom hooks ⊆ enqueued ∧
  (∀ x, x ∈ [0; 4; 5]%nat ∨ is_Some (hooks !! x) → x ∈ ground shape_3222).
Proof.
  intros hooks enqueued.
  apply (bfs_processes_once shape_3222
           (record_diamond 8%nat 5%nat 2
              (record_diamond 6%nat 3%nat 1
                 (record_diamond 4%nat 0%nat 0 no_tables)))
           shape_3222_contract 5).
  vm_compute. reflexivity.
Defined.

Lemma hooks_written_once_witness :
  ({[0%nat := 1; 1%nat := 2]} : gmap nat Z) ⊆
  {[0%nat := 1; 1%nat := 2; 2%nat := 2; 3%nat := 3]}.
Proof.
  apply (hooks_written_once single_diamond (record_diamond 0%nat 3%nat 0 no_tables)
           single_diamond_contract 2 4 [2; 3]%nat {[0%nat; 1%nat; 2%nat; 3%nat]}).
  - vm_compute. reflexivity.
  - vm_compute. reflexivity.
Defined.

Lemma get_hook_agrees_with_get_hooks_witness :
  let hooks : gmap nat Z := {[0%nat := 1; 1%nat := 2; 2%nat := 2; 3%nat := 3]} in
  let s1 := {| objects := {[0%nat := hooks; 1%nat := hooks]};
               cached := Some 0%nat; evaluations := 1 |} in
  (get_hook 4 single_diamond 3%nat new_instance).1 = getitem (deref s1 1%nat) 3%nat ∧
  (get_hook 4 single_diamond 3%nat s1).1 = getitem (deref s1 1%nat) 3%nat.
Proof.
  intros hooks s1.
  apply (get_hook_agrees_with_get_hooks single_diamond 4 new_instance s1 1%nat 3%nat).
  - apply new_instance_valid.
  - vm_compute. reflexivity.
Defined.

Lemma get_hook_total_witness :
  (3%nat ∈ ground single_diamond →
     ∃ h, ({[0%nat := 1; 1%nat := 2; 2%nat := 2; 3%nat := 3]} : gmap nat Z) !! 3%nat
            = Some h ∧
          (get_hook 4 single_diamond 3%nat new_instance).1 = Done h) ∧
  (3%nat ∉ ground single_diamond →
     (get_hook 4 single_diamond 3%nat new_instance).1 = Raised (KeyError 3%nat)).
Proof.
  apply (get_hook_total single_diamond 4).
  - apply single_diamond_contract.
  - apply single_diamond_acyclic.
  - vm_compute. reflexivity.
Defined.

Lemma repr_injective_witness : 4%nat = 4%nat ∧ false = false.
Proof. apply (repr_injective 4 4 false false). reflexivity. Defined.

(** * The sides and the chain-bottom lie below the chain-top *)

Section below.
Context `{Countable K}.
Variable P : Poset K.
Hypothesis contract : PosetContract P.

Lemma record_diamond_below (mn mx : K) (index : nat) (d : diamond K)
    (t : tables (K:=K)) :
  sides_below P t → diamonds P !! index = Some d →
  rtc (covers P) (d3 d) mx → rtc (covers P) mn (d0 d) →
  sides_below P (record_diamond mn mx index t).
Proof.
  intros Hinv Hd Hup Hdown e i b. cbn.
  destruct (decide (mx = e)) as [->|Hne].
  - rewrite !lookup_insert_eq. intros [= <-] [= <-]. by exists d.
  - rewrite !lookup_insert_ne by done. apply Hinv.
Qed.

Lemma extend_chain_below (fuel index : nat) (d : diamond K) (st st' : chain (K:=K)) :
  diamonds P !! index = Some d →
  sides_below P (tabs st) →
  rtc (covers P) (d3 d) (max_elmt st) → rtc (covers P) (min_elmt st) (d0 d) →
  extend_chain fuel P index st = Some st' →
  sides_below P (tabs st').
Proof.
  intros Hd. revert st. induction fuel as [|fuel IH]; intros st Hinv Hup Hdown; cbn;
    [done|].
  pose proof (try_candidates_first P index
    (candidate_pairs (lower_covers P (min_elmt st)) (upper_covers P (max_elmt st)))
    st) as Hfirst.
  destruct (try_candidates P index _ st) as [st1 [|]].
  - destruct Hfirst as (pre & [mn mx] & post & Hcands & _ & _ & ->).
    assert ((mn, mx) ∈ candidate_pairs (lower_covers P (min_elmt st))
                                      (upper_covers P (max_elmt st))) as Hin.
    { rewrite Hcands. apply elem_of_app. right. apply elem_of_cons. by left. }
    apply elem_of_candidate_pairs in Hin as [Hmn Hmx].
    apply (covers_dual P contract) in Hmn.
    assert (rtc (covers P) (d3 d) mx) as Hup' by (by eapply rtc_r).
    assert (rtc (covers P) mn (d0 d)) as Hdown' by (by eapply rtc_l).
    apply IH; cbn; [|done..]. by eapply record_diamond_below.
  - destruct Hfirst as [-> _]. by intros [= <-].
Qed.

Lemma find_chains_below (fuel index : nat) (pre ds : list (diamond K))
    (t t' : tables (K:=K)) :
  diamonds P = pre ++ ds → length pre = index →
  sides_below P t →
  find_chains fuel P index ds t = Some t' →
  sides_below P t'.
Proof.
  revert index pre t. induction ds as [|d ds IH]; intros index pre t Hsplit Hlen Hinv;
    cbn.
  - by intros [= <-].
  - assert (diamonds P !! index = Some d) as Hd.
    { rewrite Hsplit, <- Hlen. by apply list_lookup_middle. }
    destruct (extend_chain fuel P index _) as [st|] eqn:Hext; [|done].
    apply (extend_chain_below _ _ d) in Hext; cbn; [|done| |done..].
    + apply (IH (S index) (pre ++ [d])); [by rewrite <- app_assoc| |done].
      rewrite length_app. cbn. lia.
    + by eapply record_diamond_below.
Qed.

(** X14. The sides and the chain-bottom recorded for a chain-top lie
    strictly below it in the order of the poset: both sides are below the
    chain-top, and the chain-bottom is below both sides. *)
Theorem chain_top_above_sides (fuel : nat) (t : tables (K:=K)) (e s1 s2 b : K) :
  diamond_tables fuel P = Some t →
  chain_top P t e s1 s2 b →
  tc (covers P) s1 e ∧ tc (covers P) s2 e ∧
  tc (covers P) b s1 ∧ tc (covers P) b s2.
Proof.
  intros Ht (i & d & Hi & Hd & <- & <- & Hb).
  apply (find_chains_below fuel 0 [] (diamonds P)) in Ht; [|done|done|].
  2:{ intros e' i' b' Hi'. cbn in Hi'. by rewrite lookup_empty in Hi'. }
  destruct (Ht e i b Hi Hb) as (d' & Hd' & Hup & Hdown).
  assert (d' = d) as -> by congruence.
  destruct (diamonds_spec P contract d) as (H01 & H02 & H13 & H23).
  { by eapply list_elem_of_lookup_2. }
  split_and!.
  - eapply tc_rtc_r; [|done]. by apply tc_once.
  - eapply tc_rtc_r; [|done]. by apply tc_once.
  - eapply tc_rtc_l; [done|]. by apply tc_once.
  - eapply tc_rtc_l; [done|]. by apply tc_once.
Qed.

End below.

Lemma chain_top_above_sides_witness :
  tc (covers shape_3222) 1%nat 0%nat ∧ tc (covers shape_3222) 3%nat 0%nat ∧
  tc (covers shape_3222) 4%nat 1%nat ∧ tc (covers shape_3222) 4%nat 3%nat.
Proof.
  apply (chain_top_above_sides shape_3222 shape_3222_contract 1
           (record_diamond 8%nat 5%nat 2
              (record_diamond 6%nat 3%nat 1
                 (record_diamond 4%nat 0%nat 0 no_tables)))).
  - vm_compute. reflexivity.
  - exists 0%nat, (4, 1, 3, 0)%nat. vm_compute. repeat split.
Defined.
